(** * go-queryalternatives: the parser of [update-alternatives --query] output

    A shallow embedding of [queryalternatives.go] and the properties of its
    specification.  Go strings and byte slices are byte sequences: both are
    [string] here (the code never mutates a slice it shares).  The
    [bufio.Reader] over the input is the string of bytes not yet read.  Go
    maps are [gmap]s and, since Go tells a nil map or slice from an empty
    one, every map and slice field is an [option] whose [None] is Go's nil. *)

From Stdlib Require Import ZArith Ascii List Lia Bool.
From stdpp Require Import base option gmap strings.

Local Open Scope Z_scope.

(** ** Bytes and the library primitives the parser calls *)

Definition LF : ascii := "010"%char.
Definition CR : ascii := "013"%char.
Definition SP : ascii := " "%char.
Definition COLON : ascii := ":"%char.

(** The cut set ["\r\n"] of the two [TrimRight] calls. *)
Definition CRLF : string := String CR (String LF "").

(** [len(s)] *)
Definition len (s : string) : nat := String.length s.

(** Every byte of [s] satisfies [p]. *)
Fixpoint allBytes (p : ascii -> bool) (s : string) : bool :=
  match s with
  | "" => true
  | String c s' => p c && allBytes p s'
  end.

(** [c] does not occur in [s]. *)
Definition lacks (c : ascii) (s : string) : bool :=
  allBytes (fun x => negb (Ascii.eqb x c)) s.

(** [c] is a byte of the cut set. *)
Fixpoint inCutset (cutset : string) (c : ascii) : bool :=
  match cutset with
  | "" => false
  | String x cutset' => Ascii.eqb c x || inCutset cutset' c
  end.

(** An error value of Go's [error] interface, as far as the parser makes
    one: [io.EOF] or a [*ParseError].  A [strings.Reader] raises no other. *)
Inductive error : Type :=
  | EOF : error
  | ParseError (Message : string) (Line : Z) : error.

(** [bufio.Reader.ReadBytes(delim)]: the bytes up to and including the first
    [delim]; at the end of the input, what is left and [io.EOF].  The second
    component is the reader afterwards. *)
Fixpoint ReadBytes (delim : ascii) (s : string) : string * string * option error :=
  match s with
  | "" => ("", "", Some EOF)
  | String c s' =>
      if Ascii.eqb c delim then (String c "", s', None)
      else let '(line, rest, err) := ReadBytes delim s' in (String c line, rest, err)
  end.

(** [bufio.Reader.Peek(1)]: the next byte, not consumed, or [io.EOF]. *)
Definition Peek1 (s : string) : ascii + error :=
  match s with
  | "" => inr EOF
  | String c _ => inl c
  end.

(** [bytes.TrimLeft(s, cutset)] *)
Fixpoint TrimLeft (s cutset : string) : string :=
  match s with
  | "" => ""
  | String c s' => if inCutset cutset c then TrimLeft s' cutset else s
  end.

(** [bytes.TrimRight(s, cutset)] *)
Fixpoint TrimRight (s cutset : string) : string :=
  match s with
  | "" => ""
  | String c s' =>
      match TrimRight s' cutset with
      | "" => if inCutset cutset c then "" else String c ""
      | t => String c t
      end
  end.

(** The pieces of [s] between occurrences of the one-byte separator [sep],
    at most [S n] of them, the last one unsplit. *)
Fixpoint genSplit (s : string) (sep : ascii) (n : nat) : list string :=
  match s with
  | "" => [""]
  | String c s' =>
      match n with
      | O => [s]
      | S n' =>
          if Ascii.eqb c sep then "" :: genSplit s' sep n'
          else match genSplit s' sep n with
               | piece :: pieces => String c piece :: pieces
               | [] => [String c ""]
               end
      end
  end.

(** [bytes.SplitN(s, sep, n)] and [strings.SplitN(s, sep, n)] for a one-byte
    [sep]: at most [n] pieces; none at all for [n = 0]. *)
Definition SplitN (s : string) (sep : ascii) (n : nat) : list string :=
  match n with
  | O => []
  | S n' => genSplit s sep n'
  end.

(** [strings.Split(s, sep)] for a one-byte [sep]: all the pieces. *)
Definition Split (s : string) (sep : ascii) : list string :=
  genSplit s sep (len s).

(** Go's [int] on the 64-bit platforms the package targets. *)
Definition intSize : Z := 64.
Definition minInt : Z := - 2 ^ (intSize - 1).
Definition maxInt : Z := 2 ^ (intSize - 1) - 1.

Definition digitValue (c : ascii) : option Z :=
  let n := Z.of_nat (nat_of_ascii c) in
  if (48 <=? n) && (n <=? 57) then Some (n - 48) else None.

Fixpoint parseDigits (s : string) (acc : Z) : option Z :=
  match s with
  | "" => Some acc
  | String c s' =>
      match digitValue c with
      | Some d => parseDigits s' (acc * 10 + d)
      | None => None
      end
  end.

(** The digits of [strconv.ParseInt] in base 10, after the sign: one or
    more decimal digits, the signed value within [int]. *)
Definition atoiDigits (neg : bool) (body : string) : option Z :=
  match body with
  | "" => None
  | _ =>
      match parseDigits body 0 with
      | None => None
      | Some n =>
          let v := if neg then - n else n in
          if (minInt <=? v) && (v <=? maxInt) then Some v else None
      end
  end.

(** [strconv.Atoi(s)]: an optional sign, then the digits.  [None] is a
    non-nil [*NumError] (of either kind: [Parse] only tests the error
    against nil). *)
Definition Atoi (s : string) : option Z :=
  match s with
  | "" => None
  | String c s' =>
      let neg := Ascii.eqb c "-" in
      atoiDigits neg (if neg || Ascii.eqb c "+" then s' else s)
  end.

(** [append(slice, x)] on a slice that may be nil. *)
Definition append {A : Type} (slice : option (list A)) (x : A) : option (list A) :=
  match slice with
  | None => Some [x]
  | Some l => Some (l ++ [x])
  end.

(** ** The data model *)

Module Alternative.
Record t : Type := mk {
    Path : string;
    Priority : Z;
    Slaves : option (gmap string string)
  }.
End Alternative.

Module Alternatives.
Record t : Type := mk {
    Name : string;
    Link : string;
    Slaves : option (gmap string string);
    Status : string;
    Best : string;
    Value : string;
    Alternatives : option (list Alternative.t)
  }.
End Alternatives.

Definition newAlternative : Alternative.t :=
  Alternative.mk "" 0 (Some ∅).

Definition newAlternatives : Alternatives.t :=
  Alternatives.mk "" "" (Some ∅) "" "" "" (Some []).

(** The parser: its reader and its line counter.  The counter cannot wrap:
    it grows by one only after at least one byte was read, and a Go string
    has fewer than [2^63] bytes. *)
Record Parser : Type := mkParser {
  R : string;
  lineNo : Z
}.

Definition NewParser (input : string) : Parser := mkParser input 0.

(** ** [readKeyValue] *)

(** The first loop of [readKeyValue]: read lines until one is not empty
    once trimmed.  The result is the trimmed line, the error to return (if
    any) and the parser afterwards.  [None]: the fuel ran out, which it does
    not when it exceeds the length of the input ([seekLine_total]). *)
Fixpoint seekLine (fuel : nat) (r : Parser) : option (string * option error * Parser) :=
  match fuel with
  | O => None
  | S fuel' =>
      let '(line, rest, err) := ReadBytes LF (R r) in
      let line := TrimRight line CRLF in
      let r := mkParser rest (lineNo r) in
      let next :=
        let r := mkParser (R r) (lineNo r + 1) in
        if negb (Nat.eqb (len line) 0) then Some (line, None, r)
        else seekLine fuel' r in
      match err with
      | Some EOF => if Nat.eqb (len line) 0 then Some ("", Some EOF, r) else next
      | Some e => Some ("", Some e, r)
      | None => next
      end
  end.

(** The second loop of [readKeyValue]: while the next byte is a space, read
    the line and add it to [value]. *)
Fixpoint contLines (fuel : nat) (r : Parser) (value : string)
  : option (string * option error * Parser) :=
  match fuel with
  | O => None
  | S fuel' =>
      match Peek1 (R r) with
      | inr EOF => Some (value, None, r)
      | inr e => Some ("", Some e, r)
      | inl next0 =>
          if negb (Ascii.eqb next0 SP) then Some (value, None, r)
          else
            let '(line, rest, err) := ReadBytes LF (R r) in
            let line := TrimRight (TrimLeft line (String SP "")) CRLF in
            let r := mkParser rest (lineNo r) in
            let next :=
              let r := mkParser (R r) (lineNo r + 1) in
              let value := if Nat.ltb 0 (len value) then value +:+ String LF "" else value in
              contLines fuel' r (value +:+ line) in
            match err with
            | Some EOF => if Nat.eqb (len line) 0 then Some (value, None, r) else next
            | Some e => Some ("", Some e, r)
            | None => next
            end
      end
  end.

Definition readKeyValue (r : Parser) : option (string * string * option error * Parser) :=
  match seekLine (S (len (R r))) r with
  | None => None
  | Some (_, Some err, r) => Some ("", "", Some err, r)
  | Some (line, None, r) =>
      match SplitN line COLON 2 with
      | [key; rest] =>
          let value := TrimRight (TrimLeft rest (String SP "")) CRLF in
          match contLines (S (len (R r))) r value with
          | None => None
          | Some (_, Some err, r) => Some ("", "", Some err, r)
          | Some (value, None, r) => Some (key, value, None, r)
          end
      | _ => Some ("", "", Some (ParseError "malformed line" (lineNo r)), r)
      end
  end.

(** ** [parseSlaves] *)

Fixpoint parseSlavesLines (r : Parser) (lines : list string) (slaves : gmap string string)
  : option (gmap string string) * option error :=
  match lines with
  | [] => (Some slaves, None)
  | line :: lines' =>
      match SplitN line SP 2 with
      | [name; path] => parseSlavesLines r lines' (<[name := path]> slaves)
      | _ => (None, Some (ParseError "malformed slaves line" (lineNo r)))
      end
  end.

Definition parseSlaves (r : Parser) (input : string)
  : option (gmap string string) * option error :=
  parseSlavesLines r (Split input LF) ∅.

(** ** [Parse] *)

Definition setSlaves (a : Alternatives.t) (m : option (gmap string string)) :=
  Alternatives.mk (Alternatives.Name a) (Alternatives.Link a) m (Alternatives.Status a)
    (Alternatives.Best a) (Alternatives.Value a) (Alternatives.Alternatives a).

Definition setAlternatives (a : Alternatives.t) (l : option (list Alternative.t)) :=
  Alternatives.mk (Alternatives.Name a) (Alternatives.Link a) (Alternatives.Slaves a)
    (Alternatives.Status a) (Alternatives.Best a) (Alternatives.Value a) l.

(** The switch taken while [currentAlt == nil]: the record and the entry in
    progress afterwards, or the error returned. *)
Definition headerKey (r : Parser) (result : Alternatives.t) (k v : string)
  : (Alternatives.t * option Alternative.t) + error :=
  let '(Alternatives.mk name link slaves status best value alts) := result in
  if String.eqb k "Name" then inl (Alternatives.mk v link slaves status best value alts, None)
  else if String.eqb k "Link" then inl (Alternatives.mk name v slaves status best value alts, None)
  else if String.eqb k "Slaves" then
    match parseSlaves r v with
    | (_, Some err) => inr err
    | (m, None) => inl (setSlaves result m, None)
    end
  else if String.eqb k "Status" then inl (Alternatives.mk name link slaves v best value alts, None)
  else if String.eqb k "Best" then inl (Alternatives.mk name link slaves status v value alts, None)
  else if String.eqb k "Value" then inl (Alternatives.mk name link slaves status best v alts, None)
  else if String.eqb k "Alternative" then
    inl (result, Some (Alternative.mk v (Alternative.Priority newAlternative)
                         (Alternative.Slaves newAlternative)))
  else inr (ParseError ("unexpected key: " +:+ k) (lineNo r)).

(** The switch taken while [currentAlt != nil]. *)
Definition alternativeKey (r : Parser) (result : Alternatives.t)
    (currentAlt : Alternative.t) (k v : string)
  : (Alternatives.t * option Alternative.t) + error :=
  if String.eqb k "Priority" then
    match Atoi v with
    | None => inr (ParseError "invalid priority value" (lineNo r))
    | Some priority =>
        inl (result, Some (Alternative.mk (Alternative.Path currentAlt) priority
                             (Alternative.Slaves currentAlt)))
    end
  else if String.eqb k "Slaves" then
    match parseSlaves r v with
    | (_, Some err) => inr err
    | (m, None) =>
        inl (result, Some (Alternative.mk (Alternative.Path currentAlt)
                             (Alternative.Priority currentAlt) m))
    end
  else if String.eqb k "Alternative" then
    inl (setAlternatives result (append (Alternatives.Alternatives result) currentAlt),
         Some (Alternative.mk v (Alternative.Priority newAlternative)
                 (Alternative.Slaves newAlternative)))
  else inr (ParseError ("unexpected key: " +:+ k) (lineNo r)).

(** The switch on the key, in either state. *)
Definition keyStep (r : Parser) (result : Alternatives.t) (currentAlt : option Alternative.t)
    (k v : string) : (Alternatives.t * option Alternative.t) + error :=
  match currentAlt with
  | None => headerKey r result k v
  | Some alt => alternativeKey r result alt k v
  end.

(** The loop of [Parse] and what follows it.  The result is Go's pair
    of a pointer to the record (nil: [None]) and an error.  The fuel bounds
    the turns of the loop; each turn reads at least one byte, so the length
    of the input and one more is enough ([parseLoop_total]). *)
Fixpoint parseLoop (fuel : nat) (r : Parser) (result : Alternatives.t)
    (currentAlt : option Alternative.t)
  : option (option Alternatives.t * option error) :=
  match fuel with
  | O => None
  | S fuel' =>
      match readKeyValue r with
      | None => None
      | Some (_, _, Some EOF, _) =>
          match currentAlt with
          | Some alt =>
              Some (Some (setAlternatives result
                            (append (Alternatives.Alternatives result) alt)), None)
          | None => Some (Some result, None)
          end
      | Some (_, _, Some err, _) => Some (None, Some err)
      | Some (k, v, None, r) =>
          match keyStep r result currentAlt k v with
          | inr err => Some (None, Some err)
          | inl (result, currentAlt) => parseLoop fuel' r result currentAlt
          end
      end
  end.

Definition Parse (r : Parser) : option (option Alternatives.t * option error) :=
  parseLoop (S (len (R r))) r newAlternatives None.

Definition ParseString (input : string) : option (option Alternatives.t * option error) :=
  Parse (NewParser input).

(** The three loops at the fuel their callers give them. *)
Definition seek (r : Parser) := seekLine (S (len (R r))) r.
Definition cont (r : Parser) (value : string) := contLines (S (len (R r))) r value.
Definition parseFrom (r : Parser) (result : Alternatives.t) (currentAlt : option Alternative.t) :=
  parseLoop (S (len (R r))) r result currentAlt.

(** What the second loop of [readKeyValue] makes of a line it reads, and
    how it adds it to the value read so far. *)
Definition contText (line : string) : string :=
  TrimRight (TrimLeft line (String SP "")) CRLF.
Definition addLine (value line : string) : string :=
  (if Nat.ltb 0 (len value) then value +:+ String LF "" else value) +:+ line.

(** ** The shape of inputs

    The vocabulary in which the properties describe an input text. *)

(** [k] carriage returns. *)
Fixpoint crs (k : nat) : string :=
  match k with
  | O => ""
  | S k' => String CR (crs k')
  end.

(** Blank lines: each is empty but for carriage returns ([k] of them for
    an entry [k] of the list) and ends with a line feed. *)
Fixpoint blankLines (ks : list nat) : string :=
  match ks with
  | [] => ""
  | k :: ks' => crs k +:+ String LF (blankLines ks')
  end.

(** A line made of carriage returns only is blank. *)
Definition isBlank (l : string) : bool := allBytes (Ascii.eqb CR) l.

Definition startsWith (c : ascii) (s : string) : bool :=
  match s with
  | "" => false
  | String x _ => Ascii.eqb x c
  end.

Fixpoint endsWith (c : ascii) (s : string) : bool :=
  match s with
  | "" => false
  | String x "" => Ascii.eqb x c
  | String _ s' => endsWith c s'
  end.

(** What may follow a complete line: nothing, or a line feed and more text. *)
Definition endsLine (tail : string) : bool :=
  match tail with
  | "" => true
  | String c _ => Ascii.eqb c LF
  end.

(** The text after a line end: what follows the line feed. *)
Definition afterLine (tail : string) : string :=
  match tail with
  | "" => ""
  | String _ rest => rest
  end.

Definition isSpaces (sp : string) : bool := allBytes (fun c => Ascii.eqb c SP) sp.

(** Continuation lines: each starts with a space and ends with a line feed. *)
Fixpoint contBlock (ls : list string) : string :=
  match ls with
  | [] => ""
  | l :: ls' => String SP l +:+ String LF (contBlock ls')
  end.

(** The value of a key line as the specification words it: the text after
    the colon less exactly one leading space, and less the carriage returns
    at its end. *)
Definition valueLessOneSpace (afterColon : string) : string :=
  TrimRight (match afterColon with
             | String " " rest => rest
             | _ => afterColon
             end) (String CR "").

(** The pairs [readKeyValue] yields in turn, up to the first error or the
    end of the input. *)
Fixpoint readAll (fuel : nat) (r : Parser) : list (string * string) :=
  match fuel with
  | O => []
  | S fuel' =>
      match readKeyValue r with
      | Some (k, v, None, r') => (k, v) :: readAll fuel' r'
      | _ => []
      end
  end.

Definition readFrom (r : Parser) : list (string * string) := readAll (S (len (R r))) r.

Definition pairs (input : string) : list (string * string) := readFrom (NewParser input).

(** The values of the pairs whose key is [Alternative], in order. *)
Definition alternativePaths (kvs : list (string * string)) : list string :=
  map snd (List.filter (fun kv => String.eqb (fst kv) "Alternative") kvs).

(** The elements of a slice, none for a nil one. *)
Definition elements {A : Type} (slice : option (list A)) : list A :=
  match slice with
  | None => []
  | Some l => l
  end.

(** What a loop of [readKeyValue] makes of one [ReadBytes]: no line (the
    input ended and nothing but trimmed-away bytes was left), or the line's
    text, trimmed by [trim], and the reader afterwards. *)
Inductive lineView : Type :=
  | NoLine : lineView
  | Line (text rest : string) : lineView.

Definition nextLine (trim : string -> string) (s : string) : lineView :=
  let '(line, rest, err) := ReadBytes LF s in
  let text := trim line in
  match err with
  | Some _ => if Nat.eqb (len text) 0 then NoLine else Line text rest
  | None => Line text rest
  end.

Definition trimLine (line : string) : string := TrimRight line CRLF.

(** Two views show the same line, the readers afterwards related by [Rel]. *)
Definition sameView (Rel : string -> string -> Prop) (x y : lineView) : Prop :=
  match x, y with
  | NoLine, NoLine => True
  | Line t ra, Line u rb => t = u /\ Rel ra rb
  | _, _ => False
  end.

(** [strings.ReplaceAll(s, "\n", "\r\n")] *)
Fixpoint crlf (s : string) : string :=
  match s with
  | "" => ""
  | String c s' =>
      if Ascii.eqb c LF then String CR (String LF (crlf s')) else String c (crlf s')
  end.

(** Lines, each ended by a line feed. *)
Fixpoint linesText (ls : list string) : string :=
  match ls with
  | [] => ""
  | l :: ls' => l +:+ String LF (linesText ls')
  end.

(** Two inputs that differ by the line feed after the last line [l] at
    most: the same text, or lines and then [l], with and without it. *)
Definition lastLineRel (l a b : string) : Prop :=
  a = b \/
  exists ls, forallb (lacks LF) ls = true /\
             a = linesText ls +:+ l /\ b = linesText ls +:+ l +:+ String LF "".

(** The pairs of a text, told from its lines: a line that is blank once
    trimmed is skipped; any other line starts a pair, its key before the
    first colon (the pairs end at a line without one); the lines after it
    that start with a space continue its value.  [cur] is the pair being
    continued. *)
Fixpoint linePairs (cur : option (string * string)) (ls : list string)
  : list (string * string) :=
  match ls with
  | [] => option_list cur
  | l :: ls' =>
      let fresh :=
        if Nat.eqb (len (trimLine l)) 0 then linePairs None ls'
        else match SplitN (trimLine l) COLON 2 with
             | [k; w] => linePairs (Some (k, contText w)) ls'
             | _ => []
             end in
      match cur with
      | Some (k, v) =>
          if startsWith SP l then linePairs (Some (k, addLine v (contText l))) ls'
          else (k, v) :: fresh
      | None => fresh
      end
  end.

(** The states of [Parse] reached from a state: zero or more turns of its
    loop, each reading a pair and taking it without error. *)
Inductive reaches :
  Parser -> Alternatives.t -> option Alternative.t ->
  Parser -> Alternatives.t -> option Alternative.t -> Prop :=
  | reaches_here r result currentAlt :
      reaches r result currentAlt r result currentAlt
  | reaches_step r result currentAlt k v r1 result1 currentAlt1 r2 result2 currentAlt2 :
      readKeyValue r = Some (k, v, None, r1) ->
      keyStep r1 result currentAlt k v = inl (result1, currentAlt1) ->
      reaches r1 result1 currentAlt1 r2 result2 currentAlt2 ->
      reaches r result currentAlt r2 result2 currentAlt2.

(** The keys of the transition table: in the Header state (no entry in
    progress) and in the InAlternative state. *)
Definition expectedKeys (currentAlt : option Alternative.t) : list string :=
  match currentAlt with
  | None => ["Name"; "Link"; "Slaves"; "Status"; "Best"; "Value"; "Alternative"]
  | Some _ => ["Priority"; "Slaves"; "Alternative"]
  end.

(** Decimal integers as texts: an optional sign and digits. *)
Inductive sign : Type := NoSign | Plus | Minus.

Definition signText (sg : sign) : string :=
  match sg with
  | NoSign => ""
  | Plus => "+"
  | Minus => "-"
  end.

Definition digitByte (d : nat) : ascii := ascii_of_nat (48 + d).

Fixpoint digitsText (ds : list nat) : string :=
  match ds with
  | [] => ""
  | d :: ds' => String (digitByte d) (digitsText ds')
  end.

Definition decimalText (sg : sign) (ds : list nat) : string :=
  signText sg +:+ digitsText ds.

Definition digitsValue (ds : list nat) : Z :=
  fold_left (fun acc d => acc * 10 + Z.of_nat d) ds 0.

Definition decimalValue (sg : sign) (ds : list nat) : Z :=
  match sg with
  | Minus => - digitsValue ds
  | _ => digitsValue ds
  end.

(** At least one digit, each below ten. *)
Definition isDigits (ds : list nat) : bool :=
  negb (Nat.eqb (length ds) 0) && forallb (fun d => Nat.ltb d 10) ds.

(** The value fits Go's [int]. *)
Definition fitsInt (z : Z) : bool := (minInt <=? z) && (z <=? maxInt).

(** *** The grammar of the report

    A report, as its grammar has it: the header fields, then the entries
    ([altblock]s), each after some blank lines.  A list of slaves that is
    empty stands for a [Slaves] part that is absent. *)
Record Entry : Type := mkEntry {
  e_blanks : nat;
  e_path : string;
  e_sign : sign;
  e_digits : list nat;
  e_slaves : list (string * string)
}.

Record Document : Type := mkDocument {
  d_name : string;
  d_link : string;
  d_slaves : list (string * string);
  d_status : string;
  d_best : string;
  d_value : string;
  d_entries : list Entry
}.

(** A key line: the key, a colon, a space and the value. *)
Definition fieldLine (key v : string) : string := key +:+ String COLON (String SP v).

(** The text of a slave line after its leading space. *)
Definition slaveText (s : string * string) : string := fst s +:+ String SP (snd s).

(** The [Slaves] part: its key line ([pad] is the spaces after the colon,
    one in the grammar, none in what the tool prints) and its slave lines. *)
Definition slavesLines (pad : string) (ss : list (string * string)) : list string :=
  match ss with
  | [] => []
  | _ => ("Slaves" +:+ String COLON pad) :: map (fun s => String SP (slaveText s)) ss
  end.

Definition entryLines (pad : string) (e : Entry) : list string :=
  repeat "" (e_blanks e) ++
  [fieldLine "Alternative" (e_path e);
   fieldLine "Priority" (decimalText (e_sign e) (e_digits e))] ++
  slavesLines pad (e_slaves e).

Definition headerLines (pad : string) (d : Document) : list string :=
  [fieldLine "Name" (d_name d); fieldLine "Link" (d_link d)] ++
  slavesLines pad (d_slaves d) ++
  [fieldLine "Status" (d_status d); fieldLine "Best" (d_best d);
   fieldLine "Value" (d_value d)].

Definition documentLines (pad : string) (d : Document) : list string :=
  headerLines pad d ++ concat (map (entryLines pad) (d_entries d)).

(** The text of a report: its lines ended by a line feed, or by a carriage
    return and a line feed when [cr]; the last line without its end unless
    [final]. *)
Definition documentText (pad : string) (cr final : bool) (d : Document) : string :=
  let ls := documentLines pad d in
  let text :=
    if final then linesText ls
    else linesText (List.removelast ls) +:+ List.last ls "" in
  if cr then crlf text else text.

(** A value (NAME, PATH, the status): within a line, not starting with a
    space, not ending with a carriage return. *)
Definition okValue (v : string) : bool :=
  lacks LF v && negb (startsWith SP v) && negb (endsWith CR v).

(** A slave line: a name that is not empty and has no space, and a path. *)
Definition okSlave (s : string * string) : bool :=
  negb (Nat.eqb (len (fst s)) 0) && lacks LF (fst s) && lacks SP (fst s) &&
  lacks LF (snd s) && negb (endsWith CR (snd s)).

Definition okEntry (e : Entry) : bool :=
  okValue (e_path e) && isDigits (e_digits e) && forallb okSlave (e_slaves e).

Definition okDocument (d : Document) : bool :=
  okValue (d_name d) && okValue (d_link d) && forallb okSlave (d_slaves d) &&
  okValue (d_status d) && okValue (d_best d) && okValue (d_value d) &&
  forallb okEntry (d_entries d).

(** Every INTEGER of the report fits Go's [int]. *)
Definition prioritiesFit (d : Document) : bool :=
  forallb (fun e => fitsInt (decimalValue (e_sign e) (e_digits e))) (d_entries d).

(** The values written in a report, as a record. *)
Definition slavesMap (ss : list (string * string)) : gmap string string :=
  fold_left (fun m s => <[fst s := snd s]> m) ss ∅.

Definition entryValue (e : Entry) : Alternative.t :=
  Alternative.mk (e_path e) (decimalValue (e_sign e) (e_digits e))
    (Some (slavesMap (e_slaves e))).

Definition documentValue (d : Document) : Alternatives.t :=
  Alternatives.mk (d_name d) (d_link d) (Some (slavesMap (d_slaves d)))
    (d_status d) (d_best d) (d_value d) (Some (map entryValue (d_entries d))).

(** Texts joined by line feeds. *)
Fixpoint joinLines (xs : list string) : string :=
  match xs with
  | [] => ""
  | [x] => x
  | x :: xs' => x +:+ String LF (joinLines xs')
  end.

(** *** Vocabulary of the further properties *)

(** The lines of a text: its line feeds, and one more for a last line that
    no line feed ends. *)
Fixpoint lineCount (s : string) : nat :=
  match s with
  | "" => O
  | String c s' =>
      if Ascii.eqb c LF then S (lineCount s')
      else match s' with
           | "" => 1%nat
           | _ => lineCount s'
           end
  end.

(** The value of the last pair with key [key], if there is one. *)
Definition lastOf (key : string) (kvs : list (string * string)) : option string :=
  List.last (map (fun kv => Some (snd kv))
               (List.filter (fun kv => String.eqb (fst kv) key) kvs)) None.

(** The value of the last pair with key [key], or [d] without one. *)
Definition lastOr (d key : string) (kvs : list (string * string)) : string :=
  match lastOf key kvs with
  | Some v => v
  | None => d
  end.

(** The keys of the header fields, and those of an entry. *)
Definition fieldKeys : list string := ["Name"; "Link"; "Slaves"; "Status"; "Best"; "Value"].
Definition entryKeys : list string := ["Priority"; "Slaves"; "Alternative"].

(** The pairs up to the next [Alternative] pair. *)
Fixpoint blockOf (kvs : list (string * string)) : list (string * string) :=
  match kvs with
  | [] => []
  | kv :: kvs' => if String.eqb (fst kv) "Alternative" then [] else kv :: blockOf kvs'
  end.

(** The blocks of the pairs: the value of each [Alternative] pair with the
    pairs that follow it up to the next one. *)
Fixpoint blocksOf (kvs : list (string * string)) : list (string * list (string * string)) :=
  match kvs with
  | [] => []
  | kv :: kvs' =>
      if String.eqb (fst kv) "Alternative" then (snd kv, blockOf kvs') :: blocksOf kvs'
      else blocksOf kvs'
  end.

(** The entry a block stands for, continuing the entry [alt]: the last
    [Priority] and the last [Slaves] pair of the block count, and what the
    block does not give is kept. *)
Definition finishEntry (alt : Alternative.t) (block : list (string * string)) : Alternative.t :=
  Alternative.mk (Alternative.Path alt)
    (match lastOf "Priority" block with
     | None => Alternative.Priority alt
     | Some v => match Atoi v with Some z => z | None => 0 end
     end)
    (match lastOf "Slaves" block with
     | None => Alternative.Slaves alt
     | Some v => fst (parseSlaves (NewParser "") v)
     end).

Definition entryOf (b : string * list (string * string)) : Alternative.t :=
  finishEntry (Alternative.mk (fst b) 0 (Some ∅)) (snd b).

(** The texts after the leading empty ones. *)
Fixpoint dropEmpty (xs : list string) : list string :=
  match xs with
  | [] => []
  | x :: xs' => if Nat.eqb (len x) 0 then dropEmpty xs' else xs
  end.

(** The messages of the errors [Parse] makes. *)
Definition isParseMessage (msg : string) : Prop :=
  msg = "malformed line" \/ msg = "malformed slaves line" \/
  msg = "invalid priority value" \/ exists k, msg = "unexpected key: " +:+ k.

(** A text cut at the first [sep]: what is before it and what is after it
    (the whole text and nothing, without a [sep]). *)
Fixpoint cutAt (sep : ascii) (s : string) : string * string :=
  match s with
  | "" => ("", "")
  | String c s' =>
      if Ascii.eqb c sep then ("", s')
      else let '(a, b) := cutAt sep s' in (String c a, b)
  end.

(** ** Facts on the byte-string primitives *)

Section StringFacts.

Lemma append_nil_r (s : string) : s +:+ "" = s.
Proof. induction s as [|c s IH]; [reflexivity|]. change (String c (s +:+ "") = String c s). now rewrite IH. Qed.

Lemma append_cons (c : ascii) (s t : string) : String c s +:+ t = String c (s +:+ t).
Proof. reflexivity. Qed.

Lemma append_nil_l (s : string) : "" +:+ s = s.
Proof. reflexivity. Qed.

Lemma append_assoc (s t u : string) : (s +:+ t) +:+ u = s +:+ t +:+ u.
Proof.
  induction s as [|c s IH]; [reflexivity|].
  rewrite !append_cons. now rewrite IH.
Qed.

Lemma len_app (s t : string) : len (s +:+ t) = (len s + len t)%nat.
Proof.
  induction s as [|c s IH]; [reflexivity|].
  rewrite append_cons. unfold len in *. simpl. now rewrite IH.
Qed.

Lemma allBytes_app (p : ascii -> bool) (s t : string) :
  allBytes p (s +:+ t) = allBytes p s && allBytes p t.
Proof.
  induction s as [|c s IH]; [reflexivity|].
  rewrite append_cons. simpl. rewrite IH. now rewrite andb_assoc.
Qed.

Lemma lacks_app (c : ascii) (s t : string) :
  lacks c (s +:+ t) = lacks c s && lacks c t.
Proof. apply allBytes_app. Qed.

Lemma lacks_cons (c x : ascii) (s : string) :
  lacks c (String x s) = negb (Ascii.eqb x c) && lacks c s.
Proof. reflexivity. Qed.

(** *** [ReadBytes] *)

Lemma ReadBytes_line (l rest : string) :
  lacks LF l = true ->
  ReadBytes LF (l +:+ String LF rest) = (l +:+ String LF "", rest, None).
Proof.
  induction l as [|c l IH]; intros Hl; [reflexivity|].
  rewrite lacks_cons in Hl. apply andb_prop in Hl as [Hc Hl].
  rewrite !append_cons. simpl.
  destruct (Ascii.eqb c LF); [discriminate|].
  now rewrite (IH Hl).
Qed.

Lemma ReadBytes_last (l : string) :
  lacks LF l = true -> ReadBytes LF l = (l, "", Some EOF).
Proof.
  induction l as [|c l IH]; intros Hl; [reflexivity|].
  rewrite lacks_cons in Hl. apply andb_prop in Hl as [Hc Hl].
  simpl. destruct (Ascii.eqb c LF); [discriminate|].
  now rewrite (IH Hl).
Qed.

(** A string is one unterminated line, or a terminated line and a rest. *)
Lemma first_line (s : string) :
  lacks LF s = true \/
  exists l rest, lacks LF l = true /\ s = l +:+ String LF rest.
Proof.
  induction s as [|c s IH]; [now left|].
  destruct (Ascii.eqb_spec c LF) as [->|Hc].
  - right. exists "", s. split; reflexivity.
  - destruct IH as [IH|(l & rest & Hl & ->)].
    + left. rewrite lacks_cons, IH.
      apply Ascii.eqb_neq in Hc. now rewrite Hc.
    + right. exists (String c l), rest. split; [|reflexivity].
      rewrite lacks_cons, Hl. apply Ascii.eqb_neq in Hc. now rewrite Hc.
Qed.

(** *** [TrimRight] and [TrimLeft] *)

Lemma TrimRight_cut (t cs : string) :
  allBytes (inCutset cs) t = true -> TrimRight t cs = "".
Proof.
  induction t as [|c t IH]; intros Ht; [reflexivity|].
  simpl in Ht. apply andb_prop in Ht as [Hc Ht].
  simpl. now rewrite (IH Ht), Hc.
Qed.

Lemma TrimRight_app_cut (s t cs : string) :
  allBytes (inCutset cs) t = true -> TrimRight (s +:+ t) cs = TrimRight s cs.
Proof.
  intros Ht. induction s as [|c s IH].
  - now apply TrimRight_cut.
  - rewrite append_cons. simpl. now rewrite IH.
Qed.

Lemma TrimRight_cons_keep (c : ascii) (t cs : string) :
  inCutset cs c = false -> TrimRight (String c t) cs = String c (TrimRight t cs).
Proof. intros Hc. simpl. rewrite Hc. now destruct (TrimRight t cs). Qed.

Lemma TrimRight_app_keep (s : string) (c : ascii) (t cs : string) :
  inCutset cs c = false ->
  TrimRight (s +:+ String c t) cs = s +:+ String c (TrimRight t cs).
Proof.
  intros Hc. induction s as [|a s IH].
  - now apply TrimRight_cons_keep.
  - rewrite !append_cons. simpl. rewrite IH. now destruct s.
Qed.

Lemma TrimRight_idem (s cs : string) :
  TrimRight (TrimRight s cs) cs = TrimRight s cs.
Proof.
  induction s as [|c s IH]; [reflexivity|].
  simpl. destruct (TrimRight s cs) as [|a t] eqn:E.
  - destruct (inCutset cs c) eqn:Hc; [reflexivity|].
    simpl. now rewrite Hc.
  - simpl in *. rewrite IH. reflexivity.
Qed.

Lemma TrimLeft_cut_app (sp t cs : string) :
  allBytes (inCutset cs) sp = true -> TrimLeft (sp +:+ t) cs = TrimLeft t cs.
Proof.
  induction sp as [|c sp IH]; intros Hsp; [reflexivity|].
  simpl in Hsp. apply andb_prop in Hsp as [Hc Hsp].
  rewrite append_cons. simpl. rewrite Hc. now apply IH.
Qed.

Lemma TrimLeft_keep (c : ascii) (t cs : string) :
  inCutset cs c = false -> TrimLeft (String c t) cs = String c t.
Proof. intros Hc. simpl. now rewrite Hc. Qed.

(** *** [genSplit] *)

Lemma genSplit_found (k : string) (sep : ascii) (rest : string) (n : nat) :
  lacks sep k = true ->
  genSplit (k +:+ String sep rest) sep (S n) = k :: genSplit rest sep n.
Proof.
  induction k as [|c k IH]; intros Hk.
  - rewrite (eq_refl : "" +:+ String sep rest = String sep rest).
    simpl. now rewrite Ascii.eqb_refl.
  - rewrite lacks_cons in Hk. apply andb_prop in Hk as [Hc Hk].
    rewrite append_cons. simpl. destruct (Ascii.eqb c sep); [discriminate|].
    now rewrite (IH Hk).
Qed.

Lemma genSplit_absent (s : string) (sep : ascii) (n : nat) :
  lacks sep s = true -> genSplit s sep n = [s].
Proof.
  induction s as [|c s IH]; intros Hs; [reflexivity|].
  rewrite lacks_cons in Hs. apply andb_prop in Hs as [Hc Hs].
  simpl. destruct n; [reflexivity|].
  destruct (Ascii.eqb c sep); [discriminate|]. now rewrite (IH Hs).
Qed.

Lemma genSplit_zero (s : string) (sep : ascii) : genSplit s sep 0 = [s].
Proof. now destruct s. Qed.

End StringFacts.

(** ** The loops terminate: fuel beyond the length of the input is not used *)

Section Fuel.

Lemma seekLine_fuel (f1 f2 : nat) (r : Parser) :
  (len (R r) < f1)%nat -> (len (R r) < f2)%nat -> seekLine f1 r = seekLine f2 r.
Proof.
  revert f2 r. induction f1 as [|f1 IH]; intros f2 [s n] H1 H2; [lia|].
  destruct f2 as [|f2]; [lia|]. cbn [R] in *.
  cbn [seekLine R lineNo].
  destruct (first_line s) as [Hl|(l & rest & Hl & ->)].
  - rewrite (ReadBytes_last _ Hl).
    destruct (Nat.eqb (len (TrimRight s CRLF)) 0); reflexivity.
  - rewrite (ReadBytes_line _ _ Hl).
    destruct (Nat.eqb (len (TrimRight (l +:+ String LF "") CRLF)) 0); [|reflexivity].
    cbn [negb]. apply IH; cbn [R].
    + rewrite len_app in H1. unfold len in *. simpl in H1. lia.
    + rewrite len_app in H2. unfold len in *. simpl in H2. lia.
Qed.

Lemma contLines_fuel (f1 f2 : nat) (r : Parser) (value : string) :
  (len (R r) < f1)%nat -> (len (R r) < f2)%nat ->
  contLines f1 r value = contLines f2 r value.
Proof.
  revert f2 r value. induction f1 as [|f1 IH]; intros f2 [s n] value H1 H2; [lia|].
  destruct f2 as [|f2]; [lia|]. cbn [R] in *.
  cbn [contLines R lineNo].
  destruct s as [|c s']; [reflexivity|]. cbn [Peek1].
  destruct (negb (Ascii.eqb c SP)); [reflexivity|].
  destruct (first_line (String c s')) as [Hl|(l & rest & Hl & E)].
  - rewrite (ReadBytes_last _ Hl).
    destruct (Nat.eqb (len (TrimRight (TrimLeft (String c s') (String SP "")) CRLF)) 0);
      [reflexivity|].
    apply IH; cbn [R]; unfold len in *; simpl in *; lia.
  - rewrite E in *. rewrite (ReadBytes_line _ _ Hl).
    apply IH; cbn [R].
    + rewrite len_app in H1. unfold len in *. simpl in H1. lia.
    + rewrite len_app in H2. unfold len in *. simpl in H2. lia.
Qed.

Lemma seekLine_progress (f : nat) (r r' : Parser) (line : string) :
  seekLine f r = Some (line, None, r') -> (len (R r') < len (R r))%nat.
Proof.
  revert r. induction f as [|f IH]; intros [s n] H; [discriminate|].
  cbn [seekLine R lineNo] in H. cbn [R].
  destruct (first_line s) as [Hl|(l & rest & Hl & ->)].
  - rewrite (ReadBytes_last _ Hl) in H.
    destruct (Nat.eqb (len (TrimRight s CRLF)) 0) eqn:E; [discriminate|].
    cbn [negb] in H. injection H as _ <-. cbn [R].
    destruct s; [discriminate|]. unfold len; simpl; lia.
  - rewrite (ReadBytes_line _ _ Hl) in H.
    assert (len rest < len (l +:+ String LF rest))%nat as Hlt
      by (rewrite len_app; unfold len; simpl; lia).
    destruct (Nat.eqb (len (TrimRight (l +:+ String LF "") CRLF)) 0).
    + cbn [negb] in H. apply IH in H. cbn [R] in H. lia.
    + cbn [negb] in H. injection H as _ <-. exact Hlt.
Qed.

Lemma contLines_progress (f : nat) (r r' : Parser) (value value' : string)
    (err : option error) :
  contLines f r value = Some (value', err, r') -> (len (R r') <= len (R r))%nat.
Proof.
  revert r value. induction f as [|f IH]; intros [s n] value H; [discriminate|].
  cbn [contLines R lineNo] in H. cbn [R].
  destruct s as [|c s']; [injection H as _ _ <-; cbn [R]; lia|]. cbn [Peek1] in H.
  destruct (negb (Ascii.eqb c SP)); [injection H as _ _ <-; cbn [R]; lia|].
  destruct (first_line (String c s')) as [Hl|(l & rest & Hl & E)].
  - rewrite (ReadBytes_last _ Hl) in H.
    destruct (Nat.eqb (len (TrimRight (TrimLeft (String c s') (String SP "")) CRLF)) 0).
    + injection H as _ _ <-. cbn [R]. unfold len; simpl; lia.
    + apply IH in H. cbn [R] in H. unfold len in *; simpl in *; lia.
  - rewrite E in *. rewrite (ReadBytes_line _ _ Hl) in H.
    apply IH in H. cbn [R] in H. rewrite len_app. unfold len in *; simpl; lia.
Qed.

Lemma seekLine_total (f : nat) (r : Parser) :
  (len (R r) < f)%nat -> exists res, seekLine f r = Some res.
Proof.
  revert r. induction f as [|f IH]; intros [s n] H; [lia|].
  cbn [seekLine R lineNo]. cbn [R] in H.
  destruct (first_line s) as [Hl|(l & rest & Hl & ->)].
  - rewrite (ReadBytes_last _ Hl).
    destruct (Nat.eqb (len (TrimRight s CRLF)) 0); eauto.
  - rewrite (ReadBytes_line _ _ Hl).
    destruct (Nat.eqb (len (TrimRight (l +:+ String LF "") CRLF)) 0); cbn [negb]; eauto.
    apply IH. cbn [R]. rewrite len_app in H. unfold len in *; simpl in *; lia.
Qed.

Lemma contLines_total (f : nat) (r : Parser) (value : string) :
  (len (R r) < f)%nat -> exists res, contLines f r value = Some res.
Proof.
  revert r value. induction f as [|f IH]; intros [s n] value H; [lia|].
  cbn [contLines R lineNo]. cbn [R] in H.
  destruct s as [|c s']; [eauto|]. cbn [Peek1].
  destruct (negb (Ascii.eqb c SP)); [eauto|].
  destruct (first_line (String c s')) as [Hl|(l & rest & Hl & E)].
  - rewrite (ReadBytes_last _ Hl).
    destruct (Nat.eqb (len (TrimRight (TrimLeft (String c s') (String SP "")) CRLF)) 0);
      [eauto|].
    apply IH. cbn [R]. unfold len in *; simpl in *; lia.
  - rewrite E in *. rewrite (ReadBytes_line _ _ Hl).
    apply IH. cbn [R]. rewrite len_app in H. unfold len in *; simpl in *; lia.
Qed.

Lemma readKeyValue_total (r : Parser) : exists res, readKeyValue r = Some res.
Proof.
  unfold readKeyValue.
  destruct (seekLine_total (S (len (R r))) r) as [[[line err] r1] ->]; [lia|].
  destruct err as [e|]; [eauto|].
  destruct (SplitN line COLON 2) as [|key [|rest [|]]]; eauto.
  destruct (contLines_total (S (len (R r1))) r1
              (TrimRight (TrimLeft rest (String SP "")) CRLF)) as [[[v err] r2] ->]; [lia|].
  destruct err; eauto.
Qed.

Lemma readKeyValue_progress (r r' : Parser) (k v : string) :
  readKeyValue r = Some (k, v, None, r') -> (len (R r') < len (R r))%nat.
Proof.
  unfold readKeyValue. intros H.
  destruct (seekLine (S (len (R r))) r) as [[[line err] r1]|] eqn:E1; [|discriminate].
  destruct err as [e|]; [discriminate|].
  apply seekLine_progress in E1.
  destruct (SplitN line COLON 2) as [|key [|rest [|]]]; try discriminate.
  destruct (contLines (S (len (R r1))) r1 _) as [[[v' err] r2]|] eqn:E2; [|discriminate].
  apply contLines_progress in E2.
  destruct err; [discriminate|]. injection H as _ _ <-. lia.
Qed.

Lemma parseLoop_fuel (f1 f2 : nat) (r : Parser) (result : Alternatives.t)
    (currentAlt : option Alternative.t) :
  (len (R r) < f1)%nat -> (len (R r) < f2)%nat ->
  parseLoop f1 r result currentAlt = parseLoop f2 r result currentAlt.
Proof.
  revert f2 r result currentAlt.
  induction f1 as [|f1 IH]; intros f2 r result currentAlt H1 H2; [lia|].
  destruct f2 as [|f2]; [lia|]. cbn [parseLoop].
  destruct (readKeyValue r) as [[[[k v] err] r1]|] eqn:E; [|reflexivity].
  destruct err as [e|]; [reflexivity|].
  apply readKeyValue_progress in E.
  destruct (keyStep r1 result currentAlt k v) as [[result1 currentAlt1]|e]; [|reflexivity].
  apply IH; lia.
Qed.

Lemma parseLoop_total (f : nat) (r : Parser) (result : Alternatives.t)
    (currentAlt : option Alternative.t) :
  (len (R r) < f)%nat -> exists res, parseLoop f r result currentAlt = Some res.
Proof.
  revert r result currentAlt.
  induction f as [|f IH]; intros r result currentAlt H; [lia|].
  cbn [parseLoop].
  destruct (readKeyValue_total r) as [[[[k v] err] r1] E]. rewrite E.
  destruct err as [[|m l]|]; [destruct currentAlt; eauto|eauto|].
  apply readKeyValue_progress in E.
  destruct (keyStep r1 result currentAlt k v) as [[result1 currentAlt1]|e]; [|eauto].
  apply IH; lia.
Qed.

End Fuel.

(** [ParseString] returns on every input. *)
Lemma ParseString_total (input : string) : exists res, ParseString input = Some res.
Proof. apply parseLoop_total. cbn [NewParser R]. lia. Qed.

(** ** One turn of each loop *)

Section Steps.

Lemma len_zero (s : string) : Nat.eqb (len s) 0 = true <-> s = "".
Proof. destruct s; simpl; split; congruence. Qed.

Lemma len_nonzero (s : string) : Nat.eqb (len s) 0 = false <-> s <> "".
Proof. destruct s; simpl; split; congruence. Qed.

Lemma TrimRight_LF (l : string) : TrimRight (l +:+ String LF "") CRLF = TrimRight l CRLF.
Proof. now apply TrimRight_app_cut. Qed.

(** A terminated line: skipped when blank, returned otherwise. *)
Lemma seek_line (l rest : string) (n : Z) :
  lacks LF l = true ->
  seek (mkParser (l +:+ String LF rest) n) =
    if Nat.eqb (len (TrimRight l CRLF)) 0 then seek (mkParser rest (n + 1))
    else Some (TrimRight l CRLF, None, mkParser rest (n + 1)).
Proof.
  intros Hl. unfold seek at 1. cbn [seekLine R lineNo].
  rewrite (ReadBytes_line _ _ Hl), TrimRight_LF.
  destruct (Nat.eqb (len (TrimRight l CRLF)) 0); [|reflexivity].
  cbn [negb]. apply seekLine_fuel; cbn [R]; [|lia].
  rewrite len_app. unfold len; simpl; lia.
Qed.

(** The last, unterminated line: the end of the input when blank. *)
Lemma seek_last (l : string) (n : Z) :
  lacks LF l = true ->
  seek (mkParser l n) =
    if Nat.eqb (len (TrimRight l CRLF)) 0 then Some ("", Some EOF, mkParser "" n)
    else Some (TrimRight l CRLF, None, mkParser "" (n + 1)).
Proof.
  intros Hl. unfold seek. cbn [seekLine R lineNo].
  rewrite (ReadBytes_last _ Hl).
  destruct (Nat.eqb (len (TrimRight l CRLF)) 0); reflexivity.
Qed.

Lemma cont_eof (n : Z) (value : string) :
  cont (mkParser "" n) value = Some (value, None, mkParser "" n).
Proof. reflexivity. Qed.

Lemma cont_stop (c : ascii) (s : string) (n : Z) (value : string) :
  c <> SP ->
  cont (mkParser (String c s) n) value = Some (value, None, mkParser (String c s) n).
Proof.
  intros Hc. unfold cont. cbn [contLines R Peek1].
  apply Ascii.eqb_neq in Hc. now rewrite Hc.
Qed.

Lemma TrimLeft_app (s t cs : string) :
  TrimLeft (s +:+ t) cs =
    if allBytes (inCutset cs) s then TrimLeft t cs else TrimLeft s cs +:+ t.
Proof.
  induction s as [|c s IH]; [reflexivity|].
  rewrite append_cons. simpl. destruct (inCutset cs c); [exact IH|reflexivity].
Qed.

Lemma TrimLeft_all (s cs : string) :
  allBytes (inCutset cs) s = true -> TrimLeft s cs = "".
Proof.
  induction s as [|c s IH]; [reflexivity|]. simpl.
  destruct (inCutset cs c); [exact IH|discriminate].
Qed.

Lemma contText_LF (l : string) : contText (l +:+ String LF "") = contText l.
Proof.
  unfold contText. rewrite TrimLeft_app.
  destruct (allBytes (inCutset (String SP "")) l) eqn:E.
  - now rewrite (TrimLeft_all _ _ E).
  - now apply TrimRight_app_cut.
Qed.

(** A terminated line that starts with a space is added to the value. *)
Lemma cont_line (l rest : string) (n : Z) (value : string) :
  lacks LF l = true ->
  cont (mkParser (String SP l +:+ String LF rest) n) value =
    cont (mkParser rest (n + 1)) (addLine value (contText (String SP l))).
Proof.
  intros Hl. unfold cont at 1. rewrite append_cons.
  cbn [contLines R lineNo Peek1]. rewrite Ascii.eqb_refl. cbn [negb].
  rewrite <- append_cons.
  rewrite (ReadBytes_line (String SP l) rest) by exact Hl.
  fold (contText (String SP l +:+ String LF "")). rewrite contText_LF.
  apply contLines_fuel; cbn [R]; [|lia].
  rewrite len_app. unfold len; simpl; lia.
Qed.

(** The last, unterminated line, starting with a space: dropped when it is
    blank once trimmed, added to the value otherwise. *)
Lemma cont_last (l : string) (n : Z) (value : string) :
  lacks LF l = true ->
  cont (mkParser (String SP l) n) value =
    if Nat.eqb (len (contText (String SP l))) 0 then Some (value, None, mkParser "" n)
    else Some (addLine value (contText (String SP l)), None, mkParser "" (n + 1)).
Proof.
  intros Hl. unfold cont. cbn [contLines R lineNo Peek1].
  rewrite Ascii.eqb_refl. cbn [negb].
  rewrite (ReadBytes_last (String SP l)) by exact Hl.
  fold (contText (String SP l)).
  destruct (Nat.eqb (len (contText (String SP l))) 0); reflexivity.
Qed.

Lemma readKeyValue_eq (r : Parser) :
  readKeyValue r =
    match seek r with
    | None => None
    | Some (_, Some err, r) => Some ("", "", Some err, r)
    | Some (line, None, r) =>
        match SplitN line COLON 2 with
        | [key; rest] =>
            match cont r (contText rest) with
            | None => None
            | Some (_, Some err, r) => Some ("", "", Some err, r)
            | Some (value, None, r) => Some (key, value, None, r)
            end
        | _ => Some ("", "", Some (ParseError "malformed line" (lineNo r)), r)
        end
    end.
Proof. reflexivity. Qed.

(** One turn of the loop of [Parse]. *)
Lemma parseFrom_eq (r : Parser) (result : Alternatives.t) (currentAlt : option Alternative.t) :
  parseFrom r result currentAlt =
    match readKeyValue r with
    | None => None
    | Some (_, _, Some EOF, _) =>
        match currentAlt with
        | Some alt =>
            Some (Some (setAlternatives result
                          (append (Alternatives.Alternatives result) alt)), None)
        | None => Some (Some result, None)
        end
    | Some (_, _, Some err, _) => Some (None, Some err)
    | Some (k, v, None, r) =>
        match keyStep r result currentAlt k v with
        | inr err => Some (None, Some err)
        | inl (result, currentAlt) => parseFrom r result currentAlt
        end
    end.
Proof.
  unfold parseFrom at 1. cbn [parseLoop].
  destruct (readKeyValue r) as [[[[k v] err] r1]|] eqn:E; [|reflexivity].
  destruct err as [e|]; [reflexivity|].
  apply readKeyValue_progress in E.
  destruct (keyStep r1 result currentAlt k v) as [[result1 currentAlt1]|e]; [|reflexivity].
  apply parseLoop_fuel; lia.
Qed.

Lemma ParseString_eq (input : string) :
  ParseString input = parseFrom (mkParser input 0) newAlternatives None.
Proof. reflexivity. Qed.

End Steps.

(** ** Blank lines and lines without a colon *)

Section BlankLines.

Lemma crs_lacks_LF (k : nat) : lacks LF (crs k) = true.
Proof. induction k as [|k IH]; [reflexivity|]. exact IH. Qed.

Lemma crs_trimmed (k : nat) : TrimRight (crs k) CRLF = "".
Proof.
  apply TrimRight_cut. induction k as [|k IH]; [reflexivity|]. exact IH.
Qed.

Lemma isBlank_trimmed (l : string) : isBlank l = true -> TrimRight l CRLF = "".
Proof.
  intros H. apply TrimRight_cut. induction l as [|c l IH]; [reflexivity|].
  cbn [isBlank allBytes] in H. apply andb_prop in H as [Hc Hl].
  apply Ascii.eqb_eq in Hc. subst c.
  cbn [allBytes]. rewrite (IH Hl). reflexivity.
Qed.

Lemma not_blank_trimmed (l : string) :
  lacks LF l = true -> isBlank l = false -> TrimRight l CRLF <> "".
Proof.
  induction l as [|c l IH]; intros Hl Hb; [discriminate|].
  rewrite lacks_cons in Hl. apply andb_prop in Hl as [Hc Hl].
  simpl in Hb. simpl.
  destruct (TrimRight l CRLF) eqn:E; [|discriminate].
  destruct (Ascii.eqb_spec CR c) as [<-|Hcr].
  - simpl in Hb. now destruct (IH Hl Hb).
  - unfold inCutset. rewrite (Ascii.eqb_sym c CR).
    apply Ascii.eqb_neq in Hcr. rewrite Hcr.
    apply negb_true_iff in Hc. rewrite Hc. discriminate.
Qed.

(** The reader skips blank lines, counting them. *)
Lemma seek_blankLines (ks : list nat) (rest : string) (n : Z) :
  seek (mkParser (blankLines ks +:+ rest) n) =
  seek (mkParser rest (n + Z.of_nat (length ks))).
Proof.
  revert n. induction ks as [|k ks IH]; intros n.
  - cbn [blankLines length]. now rewrite Z.add_0_r.
  - cbn [blankLines]. rewrite append_assoc, (append_cons LF).
    rewrite seek_line by apply crs_lacks_LF.
    rewrite crs_trimmed. cbn [len String.length Nat.eqb].
    rewrite IH. f_equal. f_equal. cbn [length]. lia.
Qed.

Lemma lacks_TrimRight (c : ascii) (s cs : string) :
  lacks c s = true -> lacks c (TrimRight s cs) = true.
Proof.
  induction s as [|x s IH]; intros H; [reflexivity|].
  rewrite lacks_cons in H. apply andb_prop in H as [Hx Hs].
  simpl. specialize (IH Hs).
  destruct (TrimRight s cs) eqn:E.
  - destruct (inCutset cs x); [reflexivity|]. rewrite lacks_cons, Hx. reflexivity.
  - rewrite lacks_cons, Hx. exact IH.
Qed.

(** The first line that is not blank, read by [seek]. *)
Lemma seek_first_line (ks : list nat) (l tail : string) (n : Z) :
  lacks LF l = true -> isBlank l = false -> endsLine tail = true ->
  exists rest,
    seek (mkParser (blankLines ks +:+ l +:+ tail) n) =
    Some (TrimRight l CRLF, None, mkParser rest (n + Z.of_nat (length ks) + 1)).
Proof.
  intros Hl Hb Ht. rewrite seek_blankLines.
  pose proof (not_blank_trimmed l Hl Hb) as Hne.
  apply len_nonzero in Hne.
  destruct tail as [|c rest].
  - rewrite append_nil_r, seek_last, Hne by exact Hl. eauto.
  - apply Ascii.eqb_eq in Ht. subst c.
    rewrite seek_line, Hne by exact Hl. eauto.
Qed.

End BlankLines.

(** ** Key-value pairs *)

Section Pairs.

Lemma isSpaces_cut (sp : string) :
  isSpaces sp = true -> allBytes (inCutset (String SP "")) sp = true.
Proof.
  induction sp as [|c sp IH]; intros H; [reflexivity|].
  cbn [isSpaces allBytes] in H. apply andb_prop in H as [Hc Hsp].
  cbn [allBytes inCutset]. rewrite Hc. exact (IH Hsp).
Qed.

Lemma TrimRight_head (c : ascii) (s cs : string) :
  TrimRight (String c s) cs = "" \/ exists t, TrimRight (String c s) cs = String c t.
Proof.
  simpl. destruct (TrimRight s cs); [destruct (inCutset cs c)|]; eauto.
Qed.

Lemma contText_TrimRight (w : string) : contText (TrimRight w CRLF) = contText w.
Proof.
  unfold contText. induction w as [|c w IH]; [reflexivity|].
  destruct (Ascii.eqb_spec c SP) as [->|Hc].
  - rewrite TrimRight_cons_keep by reflexivity.
    change (TrimLeft (String SP ?x) (String SP "")) with (TrimLeft x (String SP "")).
    exact IH.
  - assert (inCutset (String SP "") c = false) as Hcut.
    { cbn [inCutset]. apply Ascii.eqb_neq in Hc. now rewrite Hc. }
    rewrite (TrimLeft_keep c w) by exact Hcut.
    destruct (TrimRight_head c w CRLF) as [E|[t E]].
    + rewrite E. reflexivity.
    + rewrite E. rewrite TrimLeft_keep by exact Hcut.
      rewrite <- E. apply TrimRight_idem.
Qed.

Lemma TrimRight_fixed (text : string) :
  lacks LF text = true -> endsWith CR text = false -> TrimRight text CRLF = text.
Proof.
  induction text as [|c t IH]; intros Hl He; [reflexivity|].
  rewrite lacks_cons in Hl. apply andb_prop in Hl as [Hc Hl].
  destruct t as [|d t'].
  - cbn [endsWith] in He. cbn [TrimRight inCutset CRLF].
    apply negb_true_iff in Hc. rewrite He, Hc. reflexivity.
  - change (endsWith CR (String c (String d t'))) with (endsWith CR (String d t')) in He.
    change (TrimRight (String c (String d t')) CRLF)
      with (match TrimRight (String d t') CRLF with
            | "" => if inCutset CRLF c then "" else String c ""
            | t => String c t
            end).
    rewrite (IH Hl He). reflexivity.
Qed.

Lemma crs_cut (k : nat) : allBytes (inCutset CRLF) (crs k) = true.
Proof. induction k as [|k IH]; [reflexivity|]. exact IH. Qed.

(** The value of a key line: the text after the colon without the spaces
    before it and the carriage returns after it. *)
Lemma contText_exact (sp text : string) (k : nat) :
  isSpaces sp = true -> lacks LF text = true ->
  startsWith SP text = false -> endsWith CR text = false ->
  contText (sp +:+ text +:+ crs k) = text.
Proof.
  intros Hsp Hl Hs He. unfold contText.
  rewrite TrimLeft_cut_app by now apply isSpaces_cut.
  assert (TrimLeft (text +:+ crs k) (String SP "") = text +:+ crs k) as ->.
  { destruct text as [|c t].
    - destruct k; reflexivity.
    - rewrite append_cons. apply TrimLeft_keep. cbn [startsWith] in Hs.
      cbn [inCutset]. now rewrite Hs. }
  rewrite TrimRight_app_cut by apply crs_cut.
  now apply TrimRight_fixed.
Qed.

Lemma cont_none (rest : string) (n : Z) (value : string) :
  startsWith SP rest = false ->
  cont (mkParser rest n) value = Some (value, None, mkParser rest n).
Proof.
  intros H. destruct rest as [|c s]; [apply cont_eof|].
  apply cont_stop. cbn [startsWith] in H. now apply Ascii.eqb_neq.
Qed.

(** The continuation lines of a value are read up to the first line that
    does not start with a space. *)
Lemma cont_block (ls : list string) (rest : string) (n : Z) (value : string) :
  forallb (lacks LF) ls = true -> startsWith SP rest = false ->
  cont (mkParser (contBlock ls +:+ rest) n) value =
    Some (fold_left addLine (map (fun l => contText (String SP l)) ls) value, None,
          mkParser rest (n + Z.of_nat (length ls))).
Proof.
  intros Hls Hrest. revert n value Hls.
  induction ls as [|l ls IH]; intros n value Hls.
  - cbn [contBlock map fold_left length]. rewrite Z.add_0_r.
    now apply cont_none.
  - cbn [forallb] in Hls. apply andb_prop in Hls as [Hl Hls].
    cbn [contBlock]. rewrite append_assoc, (append_cons LF).
    rewrite cont_line by exact Hl. rewrite (IH _ _ Hls).
    replace (n + Z.of_nat (length (l :: ls))) with (n + 1 + Z.of_nat (length ls))
      by (cbn [length]; lia).
    reflexivity.
Qed.

Lemma seek_key_line (key w : string) :
  lacks COLON key = true ->
  TrimRight (key +:+ String COLON w) CRLF = key +:+ String COLON (TrimRight w CRLF) /\
  SplitN (key +:+ String COLON (TrimRight w CRLF)) COLON 2 = [key; TrimRight w CRLF].
Proof.
  intros Hk. split.
  - now apply TrimRight_app_keep.
  - unfold SplitN. rewrite genSplit_found by exact Hk. now rewrite genSplit_zero.
Qed.

Lemma key_line_len (key t : string) :
  Nat.eqb (len (key +:+ String COLON t)) 0 = false.
Proof. now destruct key. Qed.

(** A key line ended by a line feed, after blank lines and before its
    continuation lines. *)
Lemma readKeyValue_pair (ks : list nat) (key w : string) (ls : list string)
    (rest : string) (n : Z) :
  lacks LF key = true -> lacks COLON key = true -> lacks LF w = true ->
  forallb (lacks LF) ls = true -> startsWith SP rest = false ->
  readKeyValue
    (mkParser (blankLines ks +:+ key +:+ String COLON w +:+ String LF (contBlock ls +:+ rest)) n) =
    Some (key, fold_left addLine (map (fun l => contText (String SP l)) ls) (contText w), None,
          mkParser rest (n + Z.of_nat (length ks) + 1 + Z.of_nat (length ls))).
Proof.
  intros Hk Hc Hw Hls Hrest.
  rewrite readKeyValue_eq, seek_blankLines.
  rewrite <- append_assoc.
  rewrite seek_line by (rewrite lacks_app, Hk; exact Hw).
  destruct (seek_key_line key w Hc) as [E1 E2].
  rewrite E1, key_line_len. cbv beta iota. rewrite E2.
  rewrite contText_TrimRight, cont_block by assumption.
  reflexivity.
Qed.

(** A key line that ends the input, no line feed after it. *)
Lemma readKeyValue_last_pair (ks : list nat) (key w : string) (n : Z) :
  lacks LF key = true -> lacks COLON key = true -> lacks LF w = true ->
  readKeyValue (mkParser (blankLines ks +:+ key +:+ String COLON w) n) =
    Some (key, contText w, None, mkParser "" (n + Z.of_nat (length ks) + 1)).
Proof.
  intros Hk Hc Hw.
  rewrite readKeyValue_eq, seek_blankLines.
  rewrite seek_last by (rewrite lacks_app, Hk; exact Hw).
  destruct (seek_key_line key w Hc) as [E1 E2].
  rewrite E1, key_line_len. cbv beta iota. rewrite E2.
  rewrite contText_TrimRight, cont_eof.
  reflexivity.
Qed.

End Pairs.

(** ** [strconv.Atoi] and decimal texts *)

Section Decimal.

Lemma digitValue_digitByte (d : nat) :
  (d < 10)%nat -> digitValue (digitByte d) = Some (Z.of_nat d).
Proof.
  intros H. do 10 (destruct d as [|d]; [reflexivity|]). lia.
Qed.

Lemma digitByte_no_sign (d : nat) :
  (d < 10)%nat ->
  Ascii.eqb (digitByte d) "-" = false /\ Ascii.eqb (digitByte d) "+" = false.
Proof.
  intros H. do 10 (destruct d as [|d]; [split; reflexivity|]). lia.
Qed.

Lemma digitValue_inv (c : ascii) (d : Z) :
  digitValue c = Some d -> exists k, (k < 10)%nat /\ c = digitByte k /\ d = Z.of_nat k.
Proof.
  unfold digitValue. intros H.
  destruct ((48 <=? Z.of_nat (nat_of_ascii c)) && (Z.of_nat (nat_of_ascii c) <=? 57)) eqn:E;
    [|discriminate].
  injection H as <-. apply andb_prop in E as [E1 E2].
  apply Z.leb_le in E1, E2.
  exists (nat_of_ascii c - 48)%nat. repeat split; [lia| |lia].
  unfold digitByte. replace (48 + (nat_of_ascii c - 48))%nat with (nat_of_ascii c) by lia.
  now rewrite ascii_nat_embedding.
Qed.

Lemma parseDigits_text (ds : list nat) (acc : Z) :
  forallb (fun d => Nat.ltb d 10) ds = true ->
  parseDigits (digitsText ds) acc = Some (fold_left (fun a d => a * 10 + Z.of_nat d) ds acc).
Proof.
  revert acc. induction ds as [|d ds IH]; intros acc H; [reflexivity|].
  cbn [forallb] in H. apply andb_prop in H as [Hd Hds].
  apply Nat.ltb_lt in Hd.
  cbn [digitsText parseDigits]. rewrite (digitValue_digitByte d Hd).
  now rewrite (IH _ Hds).
Qed.

Lemma parseDigits_inv (s : string) (acc n : Z) :
  parseDigits s acc = Some n ->
  exists ds, forallb (fun d => Nat.ltb d 10) ds = true /\ s = digitsText ds /\
             n = fold_left (fun a d => a * 10 + Z.of_nat d) ds acc.
Proof.
  revert acc. induction s as [|c s IH]; intros acc H.
  - injection H as <-. now exists [].
  - cbn [parseDigits] in H. destruct (digitValue c) as [d|] eqn:E; [|discriminate].
    apply digitValue_inv in E as (k & Hk & -> & ->).
    apply IH in H as (ds & Hds & -> & ->).
    exists (k :: ds). repeat split.
    cbn [forallb]. rewrite Hds. apply Nat.ltb_lt in Hk. now rewrite Hk.
Qed.

Lemma isDigits_cons (ds : list nat) :
  isDigits ds = true ->
  exists d ds', ds = d :: ds' /\ (d < 10)%nat /\ forallb (fun d => Nat.ltb d 10) ds = true.
Proof.
  unfold isDigits. intros H. apply andb_prop in H as [Hn Hall].
  destruct ds as [|d ds']; [discriminate|].
  exists d, ds'. repeat split; [|exact Hall].
  cbn [forallb] in Hall. apply andb_prop in Hall as [Hd _]. now apply Nat.ltb_lt.
Qed.

Lemma atoiDigits_text (neg : bool) (ds : list nat) :
  isDigits ds = true ->
  atoiDigits neg (digitsText ds) =
    let v := if neg then - digitsValue ds else digitsValue ds in
    if fitsInt v then Some v else None.
Proof.
  intros H. destruct (isDigits_cons ds H) as (d & ds' & -> & Hd & Hall).
  unfold atoiDigits. rewrite (parseDigits_text (d :: ds') 0 Hall). reflexivity.
Qed.

(** [Atoi] on a decimal text: its value when it fits [int], an error
    otherwise. *)
Lemma Atoi_decimal (sg : sign) (ds : list nat) :
  isDigits ds = true ->
  Atoi (decimalText sg ds) =
    if fitsInt (decimalValue sg ds) then Some (decimalValue sg ds) else None.
Proof.
  intros H. pose proof (atoiDigits_text false ds H) as Hpos.
  pose proof (atoiDigits_text true ds H) as Hneg.
  destruct sg; unfold decimalText, decimalValue.
  - destruct (isDigits_cons ds H) as (d & ds' & -> & Hd & Hall).
    destruct (digitByte_no_sign d Hd) as [Hm Hpl].
    change (Atoi (signText NoSign +:+ digitsText (d :: ds')))
      with (atoiDigits (Ascii.eqb (digitByte d) "-")
              (if Ascii.eqb (digitByte d) "-" || Ascii.eqb (digitByte d) "+"
               then digitsText ds' else digitsText (d :: ds'))).
    rewrite Hm, Hpl. exact Hpos.
  - exact Hpos.
  - exact Hneg.
Qed.

(** What [Atoi] accepts is a decimal text whose value fits [int]. *)
Lemma atoiDigits_inv (neg : bool) (body : string) (z : Z) :
  atoiDigits neg body = Some z ->
  exists ds, isDigits ds = true /\ body = digitsText ds /\
             z = (if neg then - digitsValue ds else digitsValue ds) /\ fitsInt z = true.
Proof.
  unfold atoiDigits. intros H. destruct body as [|b body']; [discriminate|].
  destruct (parseDigits (String b body') 0) as [n|] eqn:E; [|discriminate].
  cbv zeta in H.
  destruct ((minInt <=? (if neg then - n else n)) && ((if neg then - n else n) <=? maxInt))
    eqn:Er; [|discriminate].
  injection H as <-.
  apply parseDigits_inv in E as (ds & Hds & Hs & ->).
  exists ds. repeat split; [|exact Hs|exact Er].
  unfold isDigits. rewrite Hds. destruct ds; [discriminate|reflexivity].
Qed.

Lemma Atoi_inv (v : string) (z : Z) :
  Atoi v = Some z ->
  exists sg ds, isDigits ds = true /\ v = decimalText sg ds /\
                z = decimalValue sg ds /\ fitsInt z = true.
Proof.
  destruct v as [|c v']; [discriminate|].
  unfold Atoi. cbv zeta. intros H.
  destruct (Ascii.eqb_spec c "-") as [->|Hm].
  - cbn [orb] in H. apply atoiDigits_inv in H as (ds & Hds & -> & -> & Hf).
    exists Minus, ds. now repeat split.
  - destruct (Ascii.eqb_spec c "+") as [->|Hp].
    + cbn [orb] in H. apply atoiDigits_inv in H as (ds & Hds & -> & -> & Hf).
      exists Plus, ds. now repeat split.
    + cbn [orb] in H. apply atoiDigits_inv in H as (ds & Hds & E & -> & Hf).
      exists NoSign, ds. now repeat split.
Qed.

End Decimal.

(** ** The states [Parse] reaches *)

Section Reaches.

Lemma reaches_parseFrom r result currentAlt r2 result2 currentAlt2 :
  reaches r result currentAlt r2 result2 currentAlt2 ->
  parseFrom r result currentAlt = parseFrom r2 result2 currentAlt2.
Proof.
  induction 1 as [|r result currentAlt k v r1 result1 currentAlt1 r2 result2 currentAlt2
                    Hread Hstep _ IH]; [reflexivity|].
  rewrite parseFrom_eq, Hread, Hstep. exact IH.
Qed.

Lemma reaches_last r result currentAlt r1 result1 currentAlt1 k v r2 result2 currentAlt2 :
  reaches r result currentAlt r1 result1 currentAlt1 ->
  readKeyValue r1 = Some (k, v, None, r2) ->
  keyStep r2 result1 currentAlt1 k v = inl (result2, currentAlt2) ->
  reaches r result currentAlt r2 result2 currentAlt2.
Proof.
  intros H Hread Hstep. induction H.
  - eapply reaches_step; [exact Hread|exact Hstep|apply reaches_here].
  - eapply reaches_step; eauto.
Qed.

Lemma headerKey_unexpected (r : Parser) (result : Alternatives.t) (k v : string) :
  ~ In k (expectedKeys None) ->
  headerKey r result k v = inr (ParseError ("unexpected key: " +:+ k) (lineNo r)).
Proof.
  intros H. unfold headerKey. destruct result.
  repeat match goal with
         | |- context [String.eqb k ?x] =>
             destruct (String.eqb_spec k x) as [->|_];
             [exfalso; apply H; cbn [expectedKeys In]; tauto|]
         end.
  reflexivity.
Qed.

Lemma alternativeKey_unexpected (r : Parser) (result : Alternatives.t)
    (alt : Alternative.t) (k v : string) :
  ~ In k (expectedKeys (Some alt)) ->
  alternativeKey r result alt k v = inr (ParseError ("unexpected key: " +:+ k) (lineNo r)).
Proof.
  intros H. unfold alternativeKey.
  repeat match goal with
         | |- context [String.eqb k ?x] =>
             destruct (String.eqb_spec k x) as [->|_];
             [exfalso; apply H; cbn [expectedKeys In]; tauto|]
         end.
  reflexivity.
Qed.

End Reaches.

(** ** The order of the entries *)

Section Order.

Lemma readAll_fuel (f1 f2 : nat) (r : Parser) :
  (len (R r) < f1)%nat -> (len (R r) < f2)%nat -> readAll f1 r = readAll f2 r.
Proof.
  revert f2 r. induction f1 as [|f1 IH]; intros f2 r H1 H2; [lia|].
  destruct f2 as [|f2]; [lia|]. cbn [readAll].
  destruct (readKeyValue r) as [[[[k v] err] r1]|] eqn:E; [|reflexivity].
  destruct err; [reflexivity|].
  apply readKeyValue_progress in E. f_equal. apply IH; lia.
Qed.

Lemma readFrom_eq (r : Parser) :
  readFrom r =
    match readKeyValue r with
    | Some (k, v, None, r') => (k, v) :: readFrom r'
    | _ => []
    end.
Proof.
  unfold readFrom at 1. cbn [readAll].
  destruct (readKeyValue r) as [[[[k v] err] r1]|] eqn:E; [|reflexivity].
  destruct err; [reflexivity|].
  apply readKeyValue_progress in E. f_equal. apply readAll_fuel; lia.
Qed.

(** What a key does to the paths of the entries, finished and in progress. *)
Lemma keyStep_paths (r : Parser) (result : Alternatives.t) (currentAlt : option Alternative.t)
    (k v : string) (result1 : Alternatives.t) (currentAlt1 : option Alternative.t)
    (alts : list Alternative.t) :
  keyStep r result currentAlt k v = inl (result1, currentAlt1) ->
  Alternatives.Alternatives result = Some alts ->
  exists alts1,
    Alternatives.Alternatives result1 = Some alts1 /\
    map Alternative.Path alts1 ++ map Alternative.Path (option_list currentAlt1) =
      (map Alternative.Path alts ++ map Alternative.Path (option_list currentAlt)) ++
      (if String.eqb k "Alternative" then [v] else []).
Proof.
  intros H Halts. destruct currentAlt as [alt|]; cbn [keyStep] in H.
  - unfold alternativeKey in H.
    destruct (String.eqb_spec k "Priority") as [->|_].
    { destruct (Atoi v); [|discriminate]. injection H as <- <-.
      exists alts. split; [exact Halts|]. cbn. now rewrite List.app_nil_r. }
    destruct (String.eqb_spec k "Slaves") as [->|_].
    { destruct (parseSlaves r v) as [m [e|]]; [discriminate|]. injection H as <- <-.
      exists alts. split; [exact Halts|]. cbn. now rewrite List.app_nil_r. }
    destruct (String.eqb_spec k "Alternative") as [->|_]; [|discriminate].
    injection H as <- <-. rewrite Halts. exists (alts ++ [alt]).
    split; [reflexivity|]. cbn. now rewrite map_app.
  - unfold headerKey in H. destruct result as [name link slaves status best value alts'].
    cbn [Alternatives.Alternatives] in Halts. subst alts'.
    repeat match type of H with
           | context [String.eqb k ?x] =>
               destruct (String.eqb_spec k x) as [->|_];
               [try (destruct (parseSlaves r v) as [m [e|]]; [discriminate|]);
                injection H as <- <-; exists alts; split; [reflexivity|];
                cbn; now rewrite ?List.app_nil_r|]
           end.
    discriminate.
Qed.

Lemma parseFrom_paths (n : nat) (r : Parser) (result : Alternatives.t)
    (currentAlt : option Alternative.t) (record : Alternatives.t)
    (alts : list Alternative.t) :
  (len (R r) <= n)%nat ->
  Alternatives.Alternatives result = Some alts ->
  parseFrom r result currentAlt = Some (Some record, None) ->
  exists alts',
    Alternatives.Alternatives record = Some alts' /\
    map Alternative.Path alts' =
      (map Alternative.Path alts ++ map Alternative.Path (option_list currentAlt)) ++
      alternativePaths (readFrom r).
Proof.
  revert r result currentAlt alts.
  induction n as [|n IH]; intros r result currentAlt alts Hn Halts H;
    rewrite parseFrom_eq in H; rewrite readFrom_eq;
    destruct (readKeyValue r) as [[[[k v] err] r1]|] eqn:E; try discriminate.
  1,2: destruct err as [[|msg line]|]; try discriminate.
  1,3: destruct currentAlt as [alt|]; injection H as <-;
       cbn [alternativePaths List.filter map option_list]; rewrite List.app_nil_r;
       [exists (alts ++ [alt]); split; [now (cbn; rewrite Halts)|now rewrite map_app]
       |exists alts; split; [exact Halts|now rewrite List.app_nil_r]].
  - apply readKeyValue_progress in E. lia.
  - destruct (keyStep r1 result currentAlt k v) as [[result1 currentAlt1]|e] eqn:Ek;
      [|discriminate].
    destruct (keyStep_paths _ _ _ _ _ _ _ _ Ek Halts) as (alts1 & Halts1 & Hp).
    apply readKeyValue_progress in E.
    destruct (IH r1 result1 currentAlt1 alts1 ltac:(lia) Halts1 H) as (alts' & Hr & Hm).
    exists alts'. split; [exact Hr|]. rewrite Hm, Hp.
    rewrite <- List.app_assoc. f_equal.
    unfold alternativePaths. cbn [List.filter fst].
    now destruct (String.eqb k "Alternative").
Qed.

(** The finished entries are a list (not nil) in every state reached. *)
Lemma reaches_alternatives r result currentAlt r2 result2 currentAlt2 alts :
  reaches r result currentAlt r2 result2 currentAlt2 ->
  Alternatives.Alternatives result = Some alts ->
  exists alts2, Alternatives.Alternatives result2 = Some alts2.
Proof.
  intros H. revert alts.
  induction H as [|r result currentAlt k v r1 result1 currentAlt1 r2 result2 currentAlt2
                    Hread Hstep _ IH]; intros alts Halts; [eauto|].
  destruct (keyStep_paths _ _ _ _ _ _ _ _ Hstep Halts) as (alts1 & Halts1 & _).
  eauto.
Qed.

End Order.

(** ** Inputs the reader cannot tell apart *)

Section Views.

Lemma seek_view (a : string) (n : Z) :
  seek (mkParser a n) =
    match nextLine trimLine a with
    | NoLine => Some ("", Some EOF, mkParser "" n)
    | Line text rest =>
        if Nat.eqb (len text) 0 then seek (mkParser rest (n + 1))
        else Some (text, None, mkParser rest (n + 1))
    end.
Proof.
  unfold nextLine, trimLine.
  destruct (first_line a) as [Hl|(l & rest & Hl & ->)].
  - rewrite seek_last, (ReadBytes_last _ Hl) by exact Hl.
    destruct (Nat.eqb (len (TrimRight a CRLF)) 0) eqn:E; [reflexivity|].
    now rewrite E.
  - rewrite seek_line, (ReadBytes_line _ _ Hl), TrimRight_LF by exact Hl.
    reflexivity.
Qed.

Lemma cont_view (a : string) (n : Z) (value : string) :
  cont (mkParser a n) value =
    if startsWith SP a then
      match nextLine contText a with
      | NoLine => Some (value, None, mkParser "" n)
      | Line text rest => cont (mkParser rest (n + 1)) (addLine value text)
      end
    else Some (value, None, mkParser a n).
Proof.
  destruct (startsWith SP a) eqn:Hs; [|now apply cont_none].
  destruct a as [|c a']; [discriminate|].
  cbn [startsWith] in Hs. apply Ascii.eqb_eq in Hs. subst c.
  unfold nextLine.
  destruct (first_line a') as [Hl|(l & rest & Hl & ->)].
  - rewrite cont_last, (ReadBytes_last (String SP a')) by exact Hl.
    destruct (Nat.eqb (len (contText (String SP a'))) 0) eqn:E; [reflexivity|].
    rewrite cont_eof. reflexivity.
  - rewrite <- append_cons.
    rewrite cont_line, (ReadBytes_line (String SP l) rest) by exact Hl.
    now rewrite contText_LF.
Qed.

Lemma nextLine_shorter (trim : string -> string) (a text rest : string) :
  trim "" = "" -> nextLine trim a = Line text rest -> (len rest < len a)%nat.
Proof.
  intros Htrim. unfold nextLine.
  destruct (first_line a) as [Hl|(l & rest' & Hl & ->)].
  - rewrite (ReadBytes_last _ Hl).
    destruct (Nat.eqb (len (trim a)) 0) eqn:E; [discriminate|].
    intros H. injection H as _ <-.
    destruct a; [now rewrite Htrim in E|]. unfold len; simpl; lia.
  - rewrite (ReadBytes_line _ _ Hl). intros H. injection H as _ <-.
    rewrite len_app. unfold len; simpl; lia.
Qed.

Lemma parseSlavesLines_lineNo (a b : string) (n : Z) (lines : list string)
    (slaves : gmap string string) :
  parseSlavesLines (mkParser a n) lines slaves = parseSlavesLines (mkParser b n) lines slaves.
Proof.
  revert slaves. induction lines as [|line lines IH]; intros slaves; [reflexivity|].
  cbn [parseSlavesLines lineNo].
  destruct (SplitN line SP 2) as [|name [|path [|]]]; try reflexivity. apply IH.
Qed.

(** The switch on the key reads of the parser its line counter only. *)
Lemma keyStep_lineNo (a b : string) (n : Z) (result : Alternatives.t)
    (currentAlt : option Alternative.t) (k v : string) :
  keyStep (mkParser a n) result currentAlt k v = keyStep (mkParser b n) result currentAlt k v.
Proof.
  unfold keyStep, headerKey, alternativeKey, parseSlaves.
  now rewrite (parseSlavesLines_lineNo a b).
Qed.

End Views.

Section Simulation.

(** Two inputs are related when the reader sees the same lines in both. *)
Variable Rel : string -> string -> Prop.

Hypothesis Rel_end : Rel "" "".
Hypothesis Rel_seek :
  forall a b, Rel a b -> sameView Rel (nextLine trimLine a) (nextLine trimLine b).
Hypothesis Rel_space : forall a b, Rel a b -> startsWith SP a = startsWith SP b.
Hypothesis Rel_cont :
  forall a b, Rel a b -> startsWith SP a = true ->
              sameView Rel (nextLine contText a) (nextLine contText b).

Lemma sim_seek (n : nat) (a b : string) (m : Z) :
  (len a <= n)%nat -> Rel a b ->
  exists line err ra rb m',
    seek (mkParser a m) = Some (line, err, mkParser ra m') /\
    seek (mkParser b m) = Some (line, err, mkParser rb m') /\ Rel ra rb.
Proof.
  revert a b m. induction n as [|n IH]; intros a b m Hn HR;
    pose proof (Rel_seek a b HR) as Hv; rewrite !seek_view;
    destruct (nextLine trimLine a) as [|t ra] eqn:Ea;
    destruct (nextLine trimLine b) as [|u rb] eqn:Eb; cbn [sameView] in Hv;
    try contradiction.
  1,3: now exists "", (Some EOF), "", "", m.
  - apply (nextLine_shorter _ _ _ _ eq_refl) in Ea. lia.
  - destruct Hv as [<- HR']. apply (nextLine_shorter _ _ _ _ eq_refl) in Ea.
    destruct (Nat.eqb (len t) 0).
    + apply IH; [lia|exact HR'].
    + now exists t, None, ra, rb, (m + 1).
Qed.

Lemma sim_cont (n : nat) (a b : string) (m : Z) (value : string) :
  (len a <= n)%nat -> Rel a b ->
  exists value' err ra rb m',
    cont (mkParser a m) value = Some (value', err, mkParser ra m') /\
    cont (mkParser b m) value = Some (value', err, mkParser rb m') /\ Rel ra rb.
Proof.
  revert a b m value. induction n as [|n IH]; intros a b m value Hn HR;
    rewrite !cont_view; rewrite <- (Rel_space a b HR);
    destruct (startsWith SP a) eqn:Hs.
  2,4: now exists value, None, a, b, m.
  1,2: pose proof (Rel_cont a b HR Hs) as Hv;
    destruct (nextLine contText a) as [|t ra] eqn:Ea;
    destruct (nextLine contText b) as [|u rb] eqn:Eb; cbn [sameView] in Hv;
    try contradiction.
  1,3: now exists value, None, "", "", m.
  - apply (nextLine_shorter _ _ _ _ eq_refl) in Ea. lia.
  - destruct Hv as [<- HR']. apply (nextLine_shorter _ _ _ _ eq_refl) in Ea.
    apply IH; [lia|exact HR'].
Qed.

Lemma sim_readKeyValue (a b : string) (m : Z) :
  Rel a b ->
  exists k v err ra rb m',
    readKeyValue (mkParser a m) = Some (k, v, err, mkParser ra m') /\
    readKeyValue (mkParser b m) = Some (k, v, err, mkParser rb m') /\ Rel ra rb.
Proof.
  intros HR. rewrite !readKeyValue_eq.
  destruct (sim_seek (len a) a b m (le_n _) HR) as (line & err & ra & rb & m' & -> & -> & HR').
  destruct err as [e|]; [now exists "", "", (Some e), ra, rb, m'|].
  destruct (SplitN line COLON 2) as [|key [|rest [|]]];
    try now exists "", "", (Some (ParseError "malformed line" m')), ra, rb, m'.
  destruct (sim_cont (len ra) ra rb m' (contText rest) (le_n _) HR')
    as (v & err & ra2 & rb2 & m2 & -> & -> & HR2).
  destruct err as [e|]; [now exists "", "", (Some e), ra2, rb2, m2|].
  now exists key, v, None, ra2, rb2, m2.
Qed.

(** [Parse] returns the same on related inputs. *)
Lemma sim_parseFrom (n : nat) (a b : string) (m : Z) (result : Alternatives.t)
    (currentAlt : option Alternative.t) :
  (len a <= n)%nat -> Rel a b ->
  parseFrom (mkParser a m) result currentAlt = parseFrom (mkParser b m) result currentAlt.
Proof.
  revert a b m result currentAlt.
  induction n as [|n IH]; intros a b m result currentAlt Hn HR;
    rewrite !parseFrom_eq;
    destruct (sim_readKeyValue a b m HR) as (k & v & err & ra & rb & m' & Ea & Eb & HR');
    rewrite Ea, Eb; (destruct err as [e|]; [reflexivity|]);
    apply readKeyValue_progress in Ea; cbn [R] in Ea; [lia|].
  rewrite (keyStep_lineNo ra rb).
  destruct (keyStep (mkParser rb m') result currentAlt k v) as [[result1 currentAlt1]|e];
    [|reflexivity].
  apply IH; [lia|exact HR'].
Qed.

(** The reader yields the same pairs on related inputs. *)
Lemma sim_readFrom (n : nat) (a b : string) (m : Z) :
  (len a <= n)%nat -> Rel a b -> readFrom (mkParser a m) = readFrom (mkParser b m).
Proof.
  revert a b m. induction n as [|n IH]; intros a b m Hn HR;
    rewrite !readFrom_eq;
    destruct (sim_readKeyValue a b m HR) as (k & v & err & ra & rb & m' & Ea & Eb & HR');
    rewrite Ea, Eb; (destruct err as [e|]; [reflexivity|]);
    apply readKeyValue_progress in Ea; cbn [R] in Ea; [lia|].
  f_equal. apply IH; [lia|exact HR'].
Qed.

Lemma sim_ParseString (a b : string) : Rel a b -> ParseString a = ParseString b.
Proof. intros HR. rewrite !ParseString_eq. now apply (sim_parseFrom (len a)). Qed.

End Simulation.

(** ** Line endings: carriage returns, and the last line feed *)

Section LineEndings.

Lemma sameView_refl (Rel : string -> string -> Prop) (x : lineView) :
  (forall a, Rel a a) -> sameView Rel x x.
Proof. intros H. destruct x; cbn; auto. Qed.

Lemma contText_app_cut (l t : string) :
  allBytes (inCutset CRLF) t = true -> startsWith SP t = false ->
  contText (l +:+ t) = contText l.
Proof.
  intros Ht Hs. unfold contText. rewrite TrimLeft_app.
  destruct (allBytes (inCutset (String SP "")) l) eqn:E.
  - rewrite (TrimLeft_all _ _ E).
    destruct t as [|c t']; [reflexivity|].
    cbn [startsWith] in Hs. rewrite TrimLeft_keep by (cbn [inCutset]; now rewrite Hs).
    now apply TrimRight_cut.
  - now apply TrimRight_app_cut.
Qed.

Lemma crlf_lacks (l : string) : lacks LF l = true -> crlf l = l.
Proof.
  induction l as [|c l IH]; intros H; [reflexivity|].
  rewrite lacks_cons in H. apply andb_prop in H as [Hc Hl].
  cbn [crlf]. apply negb_true_iff in Hc. now rewrite Hc, (IH Hl).
Qed.

Lemma crlf_line (l rest : string) :
  lacks LF l = true ->
  crlf (l +:+ String LF rest) = (l +:+ String CR "") +:+ String LF (crlf rest).
Proof.
  induction l as [|c l IH]; intros H; [reflexivity|].
  rewrite lacks_cons in H. apply andb_prop in H as [Hc Hl].
  rewrite !append_cons. cbn [crlf]. apply negb_true_iff in Hc. now rewrite Hc, (IH Hl).
Qed.

(** A carriage return before the line feed does not change what a loop of
    the reader makes of the line. *)
Lemma crlf_view (trim : string -> string) (a : string) :
  (forall l, trim (l +:+ String CR "" +:+ String LF "") = trim (l +:+ String LF "")) ->
  sameView (fun a b => b = crlf a) (nextLine trim a) (nextLine trim (crlf a)).
Proof.
  intros Htrim. unfold nextLine.
  destruct (first_line a) as [Hl|(l & rest & Hl & ->)].
  - rewrite (crlf_lacks _ Hl), (ReadBytes_last _ Hl).
    destruct (Nat.eqb (len (trim a)) 0); cbn [sameView]; auto.
  - rewrite (crlf_line _ _ Hl), (ReadBytes_line _ _ Hl).
    rewrite ReadBytes_line by (rewrite lacks_app, Hl; reflexivity).
    cbn [sameView]. split; [|reflexivity].
    now rewrite append_assoc, Htrim.
Qed.

Lemma crlf_space (a : string) : startsWith SP a = startsWith SP (crlf a).
Proof.
  destruct a as [|c a]; [reflexivity|]. cbn [crlf startsWith].
  destruct (Ascii.eqb_spec c LF) as [->|_]; reflexivity.
Qed.

(** [Parse] returns the same whether lines end with a line feed or with a
    carriage return and a line feed. *)
Lemma ParseString_crlf (s : string) : ParseString (crlf s) = ParseString s.
Proof.
  symmetry. apply (sim_ParseString (fun a b => b = crlf a)); [reflexivity|..|reflexivity].
  - intros a b ->. apply crlf_view. intros l. unfold trimLine.
    rewrite <- append_assoc. now rewrite !TrimRight_app_cut.
  - intros a b ->. apply crlf_space.
  - intros a b -> _. apply crlf_view. intros l.
    now rewrite !contText_app_cut.
Qed.

Lemma contText_not_empty (l : string) : contText l <> "" -> TrimRight l CRLF <> "" /\ l <> "".
Proof.
  intros H. split; [|intros ->; now apply H].
  intros E. apply H. rewrite <- contText_TrimRight. now rewrite E.
Qed.

Lemma startsWith_app (c : ascii) (x y : string) :
  x <> "" -> startsWith c (x +:+ y) = startsWith c x.
Proof. destruct x; [contradiction|reflexivity]. Qed.

(** The line feed after the last line does not change what a loop of the
    reader makes of it, when the line is not blank. *)
Lemma lastLine_view (trim : string -> string) (l a b : string) :
  (forall x, trim (x +:+ String LF "") = trim x) ->
  lacks LF l = true -> trim l <> "" -> lastLineRel l a b ->
  sameView (lastLineRel l) (nextLine trim a) (nextLine trim b).
Proof.
  intros Htrim Hl Hne [->|(ls & Hls & -> & ->)].
  - apply sameView_refl. now left.
  - unfold nextLine. destruct ls as [|x ls].
    + cbn [linesText]. change ("" +:+ ?y) with y.
      rewrite (ReadBytes_last _ Hl).
      rewrite (ReadBytes_line l "" Hl), Htrim.
      apply len_nonzero in Hne. rewrite Hne. cbn [sameView]. split; [reflexivity|now left].
    + cbn [forallb] in Hls. apply andb_prop in Hls as [Hx Hls].
      cbn [linesText]. rewrite !append_assoc, !(append_cons LF).
      rewrite !(ReadBytes_line x _ Hx).
      cbn [sameView]. split; [reflexivity|]. right. now exists ls.
Qed.

Lemma lastLine_space (l a b : string) :
  l <> "" -> lastLineRel l a b -> startsWith SP a = startsWith SP b.
Proof.
  intros Hne [->|(ls & Hls & -> & ->)]; [reflexivity|].
  destruct ls as [|x ls].
  - cbn [linesText]. change ("" +:+ ?y) with y. now rewrite startsWith_app.
  - cbn [linesText]. rewrite !append_assoc. destruct x; reflexivity.
Qed.

(** [Parse] returns the same with or without the line feed after a last
    line that is not blank. *)
Lemma ParseString_last_line (ls : list string) (l : string) :
  forallb (lacks LF) ls = true -> lacks LF l = true -> contText l <> "" ->
  ParseString (linesText ls +:+ l) = ParseString (linesText ls +:+ l +:+ String LF "").
Proof.
  intros Hls Hl Hne. destruct (contText_not_empty l Hne) as [Hne1 Hne2].
  apply (sim_ParseString (lastLineRel l)).
  - now left.
  - intros a b HR. apply (lastLine_view trimLine l a b); try assumption.
    intros x. apply TrimRight_LF.
  - intros a b HR. now apply (lastLine_space l).
  - intros a b HR _. apply (lastLine_view contText l a b); try assumption.
    intros x. apply contText_LF.
  - right. now exists ls.
Qed.

Lemma linesText_snoc (ls : list string) (l : string) :
  linesText (ls ++ [l]) = linesText ls +:+ l +:+ String LF "".
Proof.
  induction ls as [|x ls IH]; [reflexivity|].
  cbn [app linesText]. now rewrite IH, append_assoc.
Qed.

(** The second loop of the reader on a text given as lines: it takes the
    lines that start with a space, as [linePairs] does. *)
Lemma cont_lines (ls : list string) (v : string) (n : Z) :
  forallb (lacks LF) ls = true ->
  exists v' ls2 n',
    cont (mkParser (linesText ls) n) v = Some (v', None, mkParser (linesText ls2) n') /\
    (forall k, linePairs (Some (k, v)) ls = (k, v') :: linePairs None ls2) /\
    (length ls2 <= length ls)%nat /\ forallb (lacks LF) ls2 = true.
Proof.
  revert v n. induction ls as [|l ls IH]; intros v n Hls.
  - exists v, [], n. now rewrite cont_eof.
  - cbn [forallb] in Hls. apply andb_prop in Hls as [Hl Hls].
    destruct (startsWith SP l) eqn:Hs.
    + destruct l as [|c l0]; [discriminate|].
      cbn [startsWith] in Hs. apply Ascii.eqb_eq in Hs. subst c.
      rewrite lacks_cons in Hl. apply andb_prop in Hl as [_ Hl0].
      destruct (IH (addLine v (contText (String SP l0))) (n + 1) Hls)
        as (v' & ls2 & n' & E & Hp & Hlen & Hall).
      exists v', ls2, n'. cbn [linesText]. rewrite cont_line by exact Hl0.
      repeat split; [exact E| |cbn [length]; lia|exact Hall].
      intros k. cbn [linePairs startsWith]. rewrite Ascii.eqb_refl. apply Hp.
    + exists v, (l :: ls), n. split; [|split; [|split]].
      * apply cont_none. cbn [linesText]. destruct l; [reflexivity|exact Hs].
      * intros k. cbn [linePairs]. now rewrite Hs.
      * apply le_n.
      * cbn [forallb]. now rewrite Hl, Hls.
Qed.

(** The pairs the reader yields from a text given as lines. *)
Lemma readFrom_lines (m : nat) (ls : list string) (n : Z) :
  (length ls <= m)%nat -> forallb (lacks LF) ls = true ->
  readFrom (mkParser (linesText ls) n) = linePairs None ls.
Proof.
  revert ls n. induction m as [|m IH]; intros ls n Hm Hls;
    (destruct ls as [|l ls]; [reflexivity|cbn [length] in Hm; try lia]).
  cbn [forallb] in Hls. apply andb_prop in Hls as [Hl Hls].
  cbn [linePairs]. unfold trimLine.
  rewrite readFrom_eq, readKeyValue_eq. cbn [linesText]. rewrite seek_line by exact Hl.
  destruct (Nat.eqb (len (TrimRight l CRLF)) 0) eqn:Eb.
  - rewrite <- readKeyValue_eq, <- readFrom_eq. apply IH; [lia|exact Hls].
  - destruct (SplitN (TrimRight l CRLF) COLON 2) as [|k [|w [|]]]; try reflexivity.
    destruct (cont_lines ls (contText w) (n + 1) Hls) as (v' & ls2 & n' & E & Hp & Hlen & Hall).
    rewrite E, Hp. f_equal. apply IH; [lia|exact Hall].
Qed.

(** The reader yields the same pairs with or without the line feed after
    a last line that is not blank. *)
Lemma readFrom_last_line (ls : list string) (l : string) :
  forallb (lacks LF) ls = true -> lacks LF l = true -> contText l <> "" ->
  pairs (linesText ls +:+ l) = pairs (linesText ls +:+ l +:+ String LF "").
Proof.
  intros Hls Hl Hne. destruct (contText_not_empty l Hne) as [Hne1 Hne2].
  unfold pairs, NewParser.
  apply (sim_readFrom (lastLineRel l)) with (n := len (linesText ls +:+ l)).
  - now left.
  - intros a b HR. apply (lastLine_view trimLine l a b); try assumption.
    intros x. apply TrimRight_LF.
  - intros a b HR. now apply (lastLine_space l).
  - intros a b HR _. apply (lastLine_view contText l a b); try assumption.
    intros x. apply contText_LF.
  - apply le_n.
  - right. now exists ls.
Qed.

Lemma contText_key_line (key w : string) : contText (key +:+ String COLON w) <> "".
Proof.
  unfold contText. rewrite TrimLeft_app.
  destruct (allBytes (inCutset (String SP "")) key).
  - rewrite TrimLeft_keep by reflexivity.
    rewrite TrimRight_cons_keep by reflexivity. discriminate.
  - rewrite TrimRight_app_keep by reflexivity.
    now destruct (TrimLeft key (String SP "")).
Qed.

End LineEndings.

(** ** Reports that follow the grammar *)

Section Report.

Lemma linesText_app (a b : list string) :
  linesText (a ++ b) = linesText a +:+ linesText b.
Proof.
  induction a as [|l a IH]; [reflexivity|].
  cbn [linesText app]. now rewrite IH, append_assoc.
Qed.

Lemma linesText_blank (k : nat) : linesText (repeat "" k) = blankLines (repeat 0%nat k).
Proof. induction k as [|k IH]; [reflexivity|]. cbn [repeat linesText blankLines]. now rewrite IH. Qed.

Lemma linesText_cont (ls : list string) :
  linesText (map (String SP) ls) = contBlock ls.
Proof. induction ls as [|l ls IH]; [reflexivity|]. cbn [map linesText contBlock]. now rewrite IH. Qed.

Lemma okValue_inv (v : string) :
  okValue v = true ->
  lacks LF v = true /\ startsWith SP v = false /\ endsWith CR v = false.
Proof.
  unfold okValue. intros H. apply andb_prop in H as [H H3]. apply andb_prop in H as [H1 H2].
  apply negb_true_iff in H2, H3. auto.
Qed.

Lemma contText_value (v : string) :
  lacks LF v = true -> startsWith SP v = false -> endsWith CR v = false ->
  contText (String SP v) = v.
Proof.
  intros H1 H2 H3.
  pose proof (contText_exact (String SP "") v 0 eq_refl H1 H2 H3) as E.
  cbn [crs] in E. rewrite append_nil_r in E. exact E.
Qed.

Lemma contText_spaces (pad : string) : isSpaces pad = true -> contText pad = "".
Proof.
  intros H. unfold contText. now rewrite TrimLeft_all by now apply isSpaces_cut.
Qed.

Lemma endsWith_app (c d : ascii) (x y : string) :
  endsWith c (x +:+ String d y) = endsWith c (String d y).
Proof.
  induction x as [|a x IH]; [reflexivity|].
  rewrite append_cons.
  change (endsWith c (String a (x +:+ String d y)))
    with (match x +:+ String d y with
          | "" => Ascii.eqb a c
          | _ => endsWith c (x +:+ String d y)
          end).
  rewrite <- IH. now destruct x.
Qed.

Lemma okSlave_inv (s : string * string) :
  okSlave s = true ->
  fst s <> "" /\ lacks LF (fst s) = true /\ lacks SP (fst s) = true /\
  lacks LF (snd s) = true /\ endsWith CR (snd s) = false.
Proof.
  unfold okSlave. intros H.
  apply andb_prop in H as [H H5]. apply andb_prop in H as [H H4].
  apply andb_prop in H as [H H3]. apply andb_prop in H as [H1 H2].
  apply negb_true_iff in H1, H5. apply len_nonzero in H1. auto.
Qed.

Lemma slaveText_facts (s : string * string) :
  okSlave s = true ->
  lacks LF (slaveText s) = true /\ slaveText s <> "" /\
  contText (String SP (slaveText s)) = slaveText s /\
  SplitN (slaveText s) SP 2 = [fst s; snd s].
Proof.
  intros H. destruct (okSlave_inv s H) as (H1 & H2 & H3 & H4 & H5).
  unfold slaveText. repeat split.
  - rewrite lacks_app, H2. rewrite lacks_cons, H4. reflexivity.
  - destruct (fst s); [contradiction|discriminate].
  - apply contText_value.
    + rewrite lacks_app, H2. rewrite lacks_cons, H4. reflexivity.
    + destruct (fst s) as [|c n]; [contradiction|].
      rewrite lacks_cons in H3. apply andb_prop in H3 as [H3 _].
      cbn [startsWith]. rewrite append_cons. now apply negb_true_iff in H3.
    + rewrite endsWith_app. destruct (snd s); [reflexivity|exact H5].
  - unfold SplitN. rewrite genSplit_found by exact H3. now rewrite genSplit_zero.
Qed.

Lemma addLine_empty (x : string) : addLine "" x = x.
Proof. reflexivity. Qed.

Lemma addLine_join (x : string) (xs : list string) :
  x <> "" -> fold_left addLine xs x = joinLines (x :: xs).
Proof.
  revert x. induction xs as [|y ys IH]; intros x Hx; [reflexivity|].
  cbn [fold_left]. rewrite IH.
  - unfold addLine. destruct x as [|c x']; [contradiction|].
    cbn [len String.length Nat.ltb Nat.leb].
    destruct ys as [|z ys]; cbn [joinLines]; now rewrite ?append_assoc.
  - unfold addLine. destruct x; [contradiction|]. destruct (Nat.ltb _ _); discriminate.
Qed.

Lemma genSplit_join (xs : list string) (n : nat) :
  forallb (lacks LF) xs = true -> xs <> [] -> (length xs <= S n)%nat ->
  genSplit (joinLines xs) LF n = xs.
Proof.
  revert n. induction xs as [|x xs IH]; intros n Hall Hne Hn; [contradiction|].
  cbn [forallb] in Hall. apply andb_prop in Hall as [Hx Hxs].
  destruct xs as [|y ys].
  - cbn [joinLines]. now apply genSplit_absent.
  - change (joinLines (x :: y :: ys)) with (x +:+ String LF (joinLines (y :: ys))).
    destruct n as [|n]; [cbn [length] in Hn; lia|].
    rewrite genSplit_found by exact Hx. f_equal.
    apply IH; [exact Hxs|discriminate|cbn [length] in *; lia].
Qed.

Lemma len_joinLines (xs : list string) : (length xs <= S (len (joinLines xs)))%nat.
Proof.
  induction xs as [|x xs IH]; [cbn; lia|].
  destruct xs as [|y ys]; [cbn; lia|].
  change (joinLines (x :: y :: ys)) with (x +:+ String LF (joinLines (y :: ys))).
  rewrite len_app. unfold len in *. cbn [length String.length] in *. lia.
Qed.

Lemma parseSlavesLines_slaves (r : Parser) (ss : list (string * string))
    (m : gmap string string) :
  forallb okSlave ss = true ->
  parseSlavesLines r (map slaveText ss) m =
    (Some (fold_left (fun m s => <[fst s := snd s]> m) ss m), None).
Proof.
  revert m. induction ss as [|s ss IH]; intros m H; [reflexivity|].
  cbn [forallb] in H. apply andb_prop in H as [Hs Hss].
  destruct (slaveText_facts s Hs) as (_ & _ & _ & E).
  cbn [map parseSlavesLines fold_left]. rewrite E. now apply IH.
Qed.

Lemma forallb_map_lacks (ss : list (string * string)) :
  forallb okSlave ss = true -> forallb (lacks LF) (map slaveText ss) = true.
Proof.
  induction ss as [|s ss IH]; intros H; [reflexivity|].
  cbn [forallb] in H. apply andb_prop in H as [Hs Hss].
  destruct (slaveText_facts s Hs) as (E & _).
  cbn [map forallb]. now rewrite E, IH.
Qed.

(** The slave lines of a report give the mapping written in them. *)
Lemma parseSlaves_slaves (r : Parser) (ss : list (string * string)) :
  ss <> [] -> forallb okSlave ss = true ->
  parseSlaves r (joinLines (map slaveText ss)) = (Some (slavesMap ss), None).
Proof.
  intros Hne H. unfold parseSlaves, Split.
  rewrite genSplit_join.
  - now apply parseSlavesLines_slaves.
  - now apply forallb_map_lacks.
  - destruct ss; [contradiction|discriminate].
  - apply len_joinLines.
Qed.

Lemma isSpaces_lacks_LF (pad : string) : isSpaces pad = true -> lacks LF pad = true.
Proof.
  induction pad as [|c pad IH]; intros H; [reflexivity|].
  cbn [isSpaces allBytes] in H. apply andb_prop in H as [Hc Hpad].
  rewrite lacks_cons, (IH Hpad), andb_true_r.
  apply Ascii.eqb_eq in Hc. now subst c.
Qed.

Lemma map_contText_slaves (ss : list (string * string)) :
  forallb okSlave ss = true ->
  map (fun l => contText (String SP l)) (map slaveText ss) = map slaveText ss.
Proof.
  induction ss as [|s ss IH]; intros H; [reflexivity|].
  cbn [forallb] in H. apply andb_prop in H as [Hs Hss].
  destruct (slaveText_facts s Hs) as (_ & _ & E & _).
  cbn [map]. now rewrite E, IH.
Qed.

Lemma linesText_slaves (pad : string) (s : string * string) (ss : list (string * string)) :
  linesText (slavesLines pad (s :: ss)) =
    ("Slaves" +:+ String COLON pad) +:+ String LF (contBlock (map slaveText (s :: ss))).
Proof.
  cbn [slavesLines linesText]. do 2 f_equal.
  rewrite <- linesText_cont. cbn [map linesText]. do 2 f_equal.
  now rewrite map_map.
Qed.

(** The [Slaves] part of a report is read as one pair. *)
Lemma readKeyValue_slaves (ks : list nat) (pad : string) (ss : list (string * string))
    (T : string) (n : Z) :
  isSpaces pad = true -> ss <> [] -> forallb okSlave ss = true ->
  startsWith SP T = false ->
  readKeyValue (mkParser (blankLines ks +:+ linesText (slavesLines pad ss) +:+ T) n) =
    Some ("Slaves", joinLines (map slaveText ss), None,
          mkParser T (n + Z.of_nat (length ks) + 1 + Z.of_nat (length ss))).
Proof.
  intros Hpad Hne Hss HT. destruct ss as [|s ss]; [contradiction|].
  rewrite linesText_slaves, !append_assoc, (append_cons LF).
  rewrite readKeyValue_pair;
    [|reflexivity|reflexivity|now apply isSpaces_lacks_LF
     |now apply forallb_map_lacks|exact HT].
  rewrite length_map, (map_contText_slaves _ Hss), (contText_spaces _ Hpad).
  cbn [forallb] in Hss. apply andb_prop in Hss as [Hs _].
  destruct (slaveText_facts s Hs) as (_ & Hne' & _).
  cbn [map fold_left]. rewrite addLine_empty, addLine_join by exact Hne'.
  reflexivity.
Qed.

Lemma readKeyValue_field (ks : list nat) (K v T : string) (n : Z) :
  lacks LF K = true -> lacks COLON K = true -> okValue v = true ->
  startsWith SP T = false ->
  readKeyValue (mkParser (blankLines ks +:+ fieldLine K v +:+ String LF T) n) =
    Some (K, v, None, mkParser T (n + Z.of_nat (length ks) + 1)).
Proof.
  intros HK1 HK2 Hv HT. destruct (okValue_inv v Hv) as (H1 & H2 & H3).
  unfold fieldLine. rewrite append_assoc.
  etransitivity;
    [exact (readKeyValue_pair ks K (String SP v) [] T n HK1 HK2 H1 eq_refl HT)|].
  cbn [map fold_left length]. rewrite contText_value by assumption.
  do 3 f_equal. lia.
Qed.

Lemma keyStep_Alternative (r : Parser) (result : Alternatives.t)
    (currentAlt : option Alternative.t) (v : string) :
  keyStep r result currentAlt "Alternative" v =
    inl (match currentAlt with
         | None => result
         | Some alt =>
             setAlternatives result (append (Alternatives.Alternatives result) alt)
         end, Some (Alternative.mk v 0 (Some ∅))).
Proof. destruct currentAlt, result; reflexivity. Qed.

Lemma keyStep_Priority (r : Parser) (result : Alternatives.t) (alt : Alternative.t)
    (v : string) :
  keyStep r result (Some alt) "Priority" v =
    match Atoi v with
    | None => inr (ParseError "invalid priority value" (lineNo r))
    | Some z =>
        inl (result, Some (Alternative.mk (Alternative.Path alt) z (Alternative.Slaves alt)))
    end.
Proof. reflexivity. Qed.

Lemma keyStep_Slaves (r : Parser) (result : Alternatives.t)
    (currentAlt : option Alternative.t) (v : string) :
  keyStep r result currentAlt "Slaves" v =
    match parseSlaves r v with
    | (_, Some err) => inr err
    | (m, None) =>
        inl (match currentAlt with
             | None => (setSlaves result m, None)
             | Some alt =>
                 (result, Some (Alternative.mk (Alternative.Path alt)
                                  (Alternative.Priority alt) m))
             end)
    end.
Proof.
  destruct currentAlt, result; cbn [keyStep headerKey alternativeKey String.eqb Ascii.eqb Bool.eqb];
    now destruct (parseSlaves r v) as [m [e|]].
Qed.

Lemma entries_start (pad : string) (es : list Entry) :
  startsWith SP (linesText (concat (map (entryLines pad) es))) = false.
Proof.
  destruct es as [|e es]; [reflexivity|].
  cbn [map concat]. unfold entryLines. now destruct (e_blanks e).
Qed.

Lemma setAlternatives_twice (result : Alternatives.t) (x y : option (list Alternative.t)) :
  setAlternatives (setAlternatives result x) y = setAlternatives result y.
Proof. reflexivity. Qed.

Lemma okEntry_inv (e : Entry) :
  okEntry e = true ->
  okValue (e_path e) = true /\ isDigits (e_digits e) = true /\
  forallb okSlave (e_slaves e) = true.
Proof.
  unfold okEntry. intros H. apply andb_prop in H as [H H3]. apply andb_prop in H as [H1 H2].
  auto.
Qed.

Lemma decimalText_okValue (sg : sign) (ds : list nat) :
  isDigits ds = true -> okValue (decimalText sg ds) = true.
Proof.
  intros H. destruct (isDigits_cons ds H) as (d & ds' & -> & _ & Hall).
  assert (forall ds, forallb (fun d => Nat.ltb d 10) ds = true ->
                     lacks LF (digitsText ds) = true /\
                     startsWith SP (digitsText ds) = false /\
                     endsWith CR (digitsText ds) = false) as Hd.
  { clear. induction ds as [|d ds IH]; intros H; [now repeat split|].
    cbn [forallb] in H. apply andb_prop in H as [Hd Hds].
    apply Nat.ltb_lt in Hd. destruct (IH Hds) as (I1 & I2 & I3).
    cbn [digitsText]. repeat split.
    - rewrite lacks_cons, I1.
      do 10 (destruct d as [|d]; [reflexivity|]). lia.
    - do 10 (destruct d as [|d]; [reflexivity|]). lia.
    - destruct ds as [|d' ds'].
      + do 10 (destruct d as [|d]; [reflexivity|]). lia.
      + exact I3. }
  destruct (Hd _ Hall) as (H1 & H2 & H3).
  unfold okValue, decimalText.
  destruct sg; cbn [signText].
  - change ("" +:+ ?x) with x. now rewrite H1, H2, H3.
  - change ("+" +:+ ?x) with (String "+" x).
    rewrite lacks_cons, H1. cbn [startsWith].
    change (endsWith CR (String "+" (digitsText (d :: ds'))))
      with (endsWith CR (digitsText (d :: ds'))).
    now rewrite H3.
  - change ("-" +:+ ?x) with (String "-" x).
    rewrite lacks_cons, H1. cbn [startsWith].
    change (endsWith CR (String "-" (digitsText (d :: ds'))))
      with (endsWith CR (digitsText (d :: ds'))).
    now rewrite H3.
Qed.

(** The entries of a report, read from any state of [Parse]: the entry in
    progress and then each entry of the report are appended in order. *)
Lemma parseFrom_entries (pad : string) (es : list Entry) :
  isSpaces pad = true -> forallb okEntry es = true ->
  forallb (fun e => fitsInt (decimalValue (e_sign e) (e_digits e))) es = true ->
  forall (n : Z) (result : Alternatives.t) (currentAlt : option Alternative.t)
         (alts : list Alternative.t),
    Alternatives.Alternatives result = Some alts ->
    parseFrom (mkParser (linesText (concat (map (entryLines pad) es))) n) result currentAlt =
      Some (Some (setAlternatives result
                    (Some (alts ++ option_list currentAlt ++ map entryValue es))), None).
Proof.
  intros Hpad. induction es as [|e es IH]; intros Hok Hfit n result currentAlt alts Halts.
  - cbn [map concat linesText]. rewrite parseFrom_eq.
    change (readKeyValue (mkParser "" n)) with (Some ("", "", Some EOF, mkParser "" n)).
    cbv beta iota. destruct currentAlt as [alt|].
    + rewrite Halts. cbn [append option_list map]. now rewrite List.app_nil_r.
    + destruct result. cbn [Alternatives.Alternatives] in Halts. subst.
      cbn [option_list map setAlternatives]. now rewrite !List.app_nil_r.
  - cbn [forallb] in Hok, Hfit.
    apply andb_prop in Hok as [He Hes]. apply andb_prop in Hfit as [Hf Hfs].
    destruct (okEntry_inv e He) as (Hp & Hd & Hss).
    cbn [map concat]. rewrite linesText_app. unfold entryLines at 1.
    rewrite linesText_app, linesText_blank. cbn [app linesText].
    repeat (progress (rewrite ?append_assoc, ?(append_cons LF))).
    pose proof (entries_start pad es) as Hstart.
    set (rest := linesText (concat (map (entryLines pad) es))) in *.
    (* Alternative *)
    rewrite parseFrom_eq, readKeyValue_field; [|reflexivity|reflexivity|exact Hp|reflexivity].
    cbv beta iota. rewrite keyStep_Alternative.
    set (result1 := match currentAlt with
                    | None => result
                    | Some alt =>
                        setAlternatives result (append (Alternatives.Alternatives result) alt)
                    end).
    assert (Alternatives.Alternatives result1 = Some (alts ++ option_list currentAlt)) as Halts1.
    { subst result1. destruct currentAlt as [alt|].
      - now rewrite Halts.
      - cbn [option_list]. now rewrite List.app_nil_r. }
    assert (forall x, setAlternatives result1 x = setAlternatives result x) as Hset.
    { intros x. subst result1. now destruct currentAlt. }
    (* Priority, and the slaves when there are some *)
    pose proof (decimalText_okValue (e_sign e) (e_digits e) Hd) as Hdec.
    destruct (e_slaves e) as [|s ss] eqn:Es.
    + cbn [slavesLines linesText]. change ("" +:+ rest) with rest.
      rewrite parseFrom_eq.
      change (fieldLine "Priority" ?v +:+ String LF rest)
        with (blankLines [] +:+ fieldLine "Priority" v +:+ String LF rest).
      rewrite readKeyValue_field; [|reflexivity|reflexivity|exact Hdec|exact Hstart].
      cbv beta iota. rewrite keyStep_Priority, (Atoi_decimal _ _ Hd), Hf.
      rewrite (IH Hes Hfs _ _ _ _ Halts1), Hset.
      cbn [option_list map app Alternative.Path Alternative.Slaves].
      unfold entryValue at 2. rewrite Es. cbn [slavesMap fold_left].
      now rewrite <- !List.app_assoc.
    + rewrite parseFrom_eq.
      change (fieldLine "Priority" ?v +:+ String LF ?T)
        with (blankLines [] +:+ fieldLine "Priority" v +:+ String LF T).
      rewrite readKeyValue_field;
        [|reflexivity|reflexivity|exact Hdec|now rewrite linesText_slaves].
      cbv beta iota. rewrite keyStep_Priority, (Atoi_decimal _ _ Hd), Hf.
      rewrite parseFrom_eq.
      change (linesText (slavesLines pad (s :: ss)) +:+ rest)
        with (blankLines [] +:+ linesText (slavesLines pad (s :: ss)) +:+ rest).
      rewrite readKeyValue_slaves; [|exact Hpad|discriminate|exact Hss|exact Hstart].
      cbv beta iota. rewrite keyStep_Slaves, parseSlaves_slaves; [|discriminate|exact Hss].
      rewrite (IH Hes Hfs _ _ _ _ Halts1), Hset.
      cbn [option_list map app Alternative.Path Alternative.Priority].
      unfold entryValue at 2. rewrite Es.
      now rewrite <- !List.app_assoc.
Qed.

Lemma okDocument_inv (d : Document) :
  okDocument d = true ->
  okValue (d_name d) = true /\ okValue (d_link d) = true /\
  forallb okSlave (d_slaves d) = true /\ okValue (d_status d) = true /\
  okValue (d_best d) = true /\ okValue (d_value d) = true /\
  forallb okEntry (d_entries d) = true.
Proof.
  unfold okDocument. intros H.
  do 6 (apply andb_prop in H as [H ?]). repeat split; assumption.
Qed.

(** One turn of the loop of [Parse] on a key line of the header. *)
Ltac header_field K Hvalue tac :=
  rewrite parseFrom_eq;
  change (fieldLine K ?v +:+ String LF ?T)
    with (blankLines [] +:+ fieldLine K v +:+ String LF T);
  rewrite readKeyValue_field; [|reflexivity|reflexivity|exact Hvalue|tac];
  cbv beta iota; cbn [keyStep headerKey newAlternatives String.eqb Ascii.eqb Bool.eqb].

(** A report whose lines all end with a line feed. *)
Lemma ParseString_lines (pad : string) (d : Document) :
  isSpaces pad = true -> okDocument d = true -> prioritiesFit d = true ->
  ParseString (linesText (documentLines pad d)) = Some (Some (documentValue d), None).
Proof.
  intros Hpad Hok Hfit.
  destruct (okDocument_inv d Hok) as (Hname & Hlink & Hss & Hstatus & Hbest & Hvalue & Hes).
  rewrite ParseString_eq. unfold documentLines, headerLines.
  rewrite !linesText_app. cbn [app linesText].
  repeat (progress (rewrite ?append_assoc, ?(append_cons LF))).
  pose proof (entries_start pad (d_entries d)) as Hstart.
  rewrite !append_nil_l.
  assert (forall T, startsWith SP (linesText (slavesLines pad (d_slaves d)) +:+
                                   fieldLine "Status" (d_status d) +:+ T) = false) as Hs.
  { intros T. destruct (d_slaves d); [reflexivity|now rewrite linesText_slaves]. }
  header_field "Name" Hname ltac:(reflexivity).
  header_field "Link" Hlink ltac:(apply Hs).
  destruct (d_slaves d) as [|s ss] eqn:Ess.
  - cbn [slavesLines linesText]. rewrite !append_nil_l.
    header_field "Status" Hstatus ltac:(reflexivity).
    header_field "Best" Hbest ltac:(reflexivity).
    header_field "Value" Hvalue ltac:(exact Hstart).
    rewrite (parseFrom_entries pad (d_entries d) Hpad Hes Hfit _
               (Alternatives.mk (d_name d) (d_link d) (Some ∅) (d_status d) (d_best d)
                  (d_value d) (Some [])) None [] eq_refl).
    unfold documentValue. now rewrite Ess.
  - rewrite parseFrom_eq.
    change (linesText (slavesLines pad (s :: ss)) +:+ ?T)
      with (blankLines [] +:+ linesText (slavesLines pad (s :: ss)) +:+ T).
    rewrite readKeyValue_slaves; [|exact Hpad|discriminate|exact Hss|reflexivity].
    cbv beta iota. rewrite keyStep_Slaves, parseSlaves_slaves; [|discriminate|exact Hss].
    unfold setSlaves.
    cbn [Alternatives.Name Alternatives.Link Alternatives.Status Alternatives.Best
           Alternatives.Value Alternatives.Alternatives].
    header_field "Status" Hstatus ltac:(reflexivity).
    header_field "Best" Hbest ltac:(reflexivity).
    header_field "Value" Hvalue ltac:(exact Hstart).
    rewrite (parseFrom_entries pad (d_entries d) Hpad Hes Hfit _
               (Alternatives.mk (d_name d) (d_link d) (Some (slavesMap (s :: ss)))
                  (d_status d) (d_best d) (d_value d) (Some [])) None [] eq_refl).
    unfold documentValue. now rewrite Ess.
Qed.

Lemma linesText_removelast (ls : list string) :
  ls <> [] ->
  linesText ls = linesText (List.removelast ls) +:+ List.last ls "" +:+ String LF "".
Proof.
  induction ls as [|l ls IH]; intros H; [contradiction|].
  destruct ls as [|l' ls']; [reflexivity|].
  change (List.removelast (l :: l' :: ls')) with (l :: List.removelast (l' :: ls')).
  change (List.last (l :: l' :: ls') "") with (List.last (l' :: ls') "").
  cbn [linesText] in *. rewrite IH by discriminate.
  now rewrite append_assoc, append_cons.
Qed.

Lemma forallb_removelast {A : Type} (p : A -> bool) (ls : list A) :
  forallb p ls = true -> forallb p (List.removelast ls) = true.
Proof.
  induction ls as [|l ls IH]; intros H; [reflexivity|].
  cbn [forallb] in H. apply andb_prop in H as [Hl Hls].
  destruct ls as [|l' ls']; [reflexivity|].
  change (List.removelast (l :: l' :: ls')) with (l :: List.removelast (l' :: ls')).
  cbn [forallb]. now rewrite Hl, IH.
Qed.

Lemma forallb_last {A : Type} (p : A -> bool) (ls : list A) (x : A) :
  forallb p ls = true -> ls <> [] -> p (List.last ls x) = true.
Proof.
  induction ls as [|l ls IH]; intros H Hne; [contradiction|].
  cbn [forallb] in H. apply andb_prop in H as [Hl Hls].
  destruct ls as [|l' ls']; [exact Hl|].
  change (List.last (l :: l' :: ls') x) with (List.last (l' :: ls') x).
  apply IH; [exact Hls|discriminate].
Qed.

Lemma last_app_r {A : Type} (a b : list A) (x : A) :
  b <> [] -> List.last (a ++ b) x = List.last b x.
Proof.
  intros Hb. induction a as [|y a IH]; [reflexivity|].
  cbn [app]. destruct (a ++ b) eqn:E.
  - destruct a; [contradiction|discriminate].
  - exact IH.
Qed.

Lemma fieldLine_lacks_LF (K v : string) :
  lacks LF K = true -> okValue v = true -> lacks LF (fieldLine K v) = true.
Proof.
  intros HK Hv. destruct (okValue_inv v Hv) as (H1 & _).
  unfold fieldLine.
  now rewrite lacks_app, HK, (lacks_cons LF COLON), (lacks_cons LF SP), H1.
Qed.

Lemma slavesLines_lack_LF (pad : string) (ss : list (string * string)) :
  isSpaces pad = true -> forallb okSlave ss = true ->
  forallb (lacks LF) (slavesLines pad ss) = true.
Proof.
  intros Hpad Hss. destruct ss as [|s ss]; [reflexivity|].
  unfold slavesLines. cbn [forallb].
  rewrite lacks_app, (lacks_cons LF COLON pad), (isSpaces_lacks_LF _ Hpad).
  change (lacks LF "Slaves" && (negb (Ascii.eqb COLON LF) && true)) with true.
  cbn [andb]. rewrite <- (map_map slaveText (String SP)).
  pose proof (forallb_map_lacks _ Hss) as H.
  revert H. generalize (map slaveText (s :: ss)). clear.
  induction l as [|x l IH]; intros H; [reflexivity|].
  cbn [forallb] in H. apply andb_prop in H as [Hx Hl].
  cbn [map forallb]. now rewrite lacks_cons, Hx, IH.
Qed.

Lemma entryLines_lack_LF (pad : string) (e : Entry) :
  isSpaces pad = true -> okEntry e = true ->
  forallb (lacks LF) (entryLines pad e) = true.
Proof.
  intros Hpad He. destruct (okEntry_inv e He) as (Hp & Hd & Hss).
  unfold entryLines. rewrite !forallb_app. cbn [forallb].
  rewrite (fieldLine_lacks_LF "Alternative" _ eq_refl Hp).
  rewrite (fieldLine_lacks_LF "Priority" _ eq_refl (decimalText_okValue _ _ Hd)).
  rewrite (slavesLines_lack_LF _ _ Hpad Hss). cbn [andb].
  rewrite andb_true_r. induction (e_blanks e) as [|k IH]; [reflexivity|exact IH].
Qed.

Lemma documentLines_lack_LF (pad : string) (d : Document) :
  isSpaces pad = true -> okDocument d = true ->
  forallb (lacks LF) (documentLines pad d) = true.
Proof.
  intros Hpad Hok.
  destruct (okDocument_inv d Hok) as (Hname & Hlink & Hss & Hstatus & Hbest & Hvalue & Hes).
  unfold documentLines, headerLines. rewrite !forallb_app. cbn [forallb].
  rewrite (fieldLine_lacks_LF "Name" _ eq_refl Hname).
  rewrite (fieldLine_lacks_LF "Link" _ eq_refl Hlink).
  rewrite (fieldLine_lacks_LF "Status" _ eq_refl Hstatus).
  rewrite (fieldLine_lacks_LF "Best" _ eq_refl Hbest).
  rewrite (fieldLine_lacks_LF "Value" _ eq_refl Hvalue).
  rewrite (slavesLines_lack_LF _ _ Hpad Hss). cbn [andb].
  induction (d_entries d) as [|e es IH]; [reflexivity|].
  cbn [forallb] in Hes. apply andb_prop in Hes as [He Hes].
  cbn [map concat]. rewrite forallb_app, (entryLines_lack_LF _ _ Hpad He). now apply IH.
Qed.

(** The last line of an entry, and of a report, is not blank. *)
Lemma slavesLines_last (pad : string) (s : string * string) (ss : list (string * string)) :
  forallb okSlave (s :: ss) = true ->
  contText (List.last (slavesLines pad (s :: ss)) "") <> "".
Proof.
  unfold slavesLines.
  change (List.last (?x :: map ?f (s :: ss)) "") with (List.last (map f (s :: ss)) "").
  revert s. induction ss as [|s' ss IH]; intros s H.
  - cbn [forallb] in H. apply andb_prop in H as [Hs _].
    destruct (slaveText_facts s Hs) as (_ & Hne & E & _).
    cbn [map List.last]. now rewrite E.
  - cbn [forallb] in H. apply andb_prop in H as [_ H].
    change (List.last (map ?f (s :: s' :: ss)) "") with (List.last (map f (s' :: ss)) "").
    now apply IH.
Qed.

Lemma entryLines_last (pad : string) (e : Entry) :
  okEntry e = true ->
  entryLines pad e <> [] /\ contText (List.last (entryLines pad e) "") <> "".
Proof.
  intros He. destruct (okEntry_inv e He) as (_ & _ & Hss).
  unfold entryLines. split.
  - destruct (repeat "" (e_blanks e)); discriminate.
  - destruct (e_slaves e) as [|s ss].
    + cbn [slavesLines]. rewrite List.app_nil_r, last_app_r by discriminate.
      apply contText_key_line.
    + rewrite List.app_assoc, last_app_r by discriminate. now apply slavesLines_last.
Qed.

Lemma documentLines_last (pad : string) (d : Document) :
  okDocument d = true ->
  documentLines pad d <> [] /\ contText (List.last (documentLines pad d) "") <> "".
Proof.
  intros Hok.
  destruct (okDocument_inv d Hok) as (_ & _ & _ & _ & _ & _ & Hes).
  unfold documentLines. split; [discriminate|].
  induction (d_entries d) as [|e es IH] using rev_ind.
  - cbn [map concat]. rewrite List.app_nil_r. unfold headerLines.
    rewrite List.app_assoc, last_app_r by discriminate. apply contText_key_line.
  - rewrite forallb_app in Hes. apply andb_prop in Hes as [_ He].
    cbn [forallb] in He. apply andb_prop in He as [He _].
    destruct (entryLines_last pad e He) as [Hne Hlast].
    rewrite map_app, concat_app. cbn [map concat]. rewrite List.app_nil_r.
    rewrite List.app_assoc. now rewrite last_app_r.
Qed.

(** A report in any of its four writings: lines ended by a line feed or
    by a carriage return and a line feed, the last line ended or not. *)
Lemma ParseString_documentText (pad : string) (cr final : bool) (d : Document) :
  isSpaces pad = true -> okDocument d = true -> prioritiesFit d = true ->
  ParseString (documentText pad cr final d) = Some (Some (documentValue d), None).
Proof.
  intros Hpad Hok Hfit. unfold documentText.
  assert (ParseString (if final then linesText (documentLines pad d)
                       else linesText (List.removelast (documentLines pad d)) +:+
                            List.last (documentLines pad d) "") =
          Some (Some (documentValue d), None)) as H.
  { destruct final; [now apply ParseString_lines|].
    destruct (documentLines_last pad d Hok) as [Hne Hlast].
    pose proof (documentLines_lack_LF pad d Hpad Hok) as Hall.
    rewrite ParseString_last_line;
      [|now apply forallb_removelast|now apply forallb_last|exact Hlast].
    rewrite <- linesText_removelast by exact Hne.
    now apply ParseString_lines. }
  destruct cr; [now rewrite ParseString_crlf|exact H].
Qed.

End Report.

(** ** The claims *)

(** C1, as the code has it. A text that follows the grammar of the report
    (its values within a line, not starting with a space and not ending with
    a carriage return; its slave names not empty and without a space; lines
    ended by a line feed or by a carriage return and a line feed; the last
    line ended or not) and whose INTEGERs fit Go's [int] parses without
    error to the record of the values written in it: Name, Link, Status,
    Best, Value, the Path and Priority of each entry in order, and each
    Slaves mapping. *)
Theorem C1_report_parses_to_its_values (pad : string) (cr final : bool) (d : Document) :
  isSpaces pad = true -> okDocument d = true -> prioritiesFit d = true ->
  ParseString (documentText pad cr final d) = Some (Some (documentValue d), None).
Proof. apply ParseString_documentText. Qed.

Lemma C1_witness :
  ParseString
    (documentText " " true false
       (mkDocument "java" "/usr/bin/java" [("java.1.gz", "/usr/share/man/man1/java.1.gz")]
          "auto" "/usr/lib/jvm/java-21/bin/java" "/usr/lib/jvm/java-21/bin/java"
          [mkEntry 1 "/usr/lib/jvm/java-21/bin/java" NoSign [2; 1; 1; 1]%nat
             [("java.1.gz", "/usr/lib/jvm/java-21/man/man1/java.1.gz");
              ("java.ja.1.gz", "/usr/lib/jvm/java-21/man/ja/man1/java.1.gz")];
           mkEntry 1 "/usr/lib/jvm/java-8/jre/bin/java" Minus [1; 0; 8; 1]%nat []])) =
    Some (Some (documentValue
       (mkDocument "java" "/usr/bin/java" [("java.1.gz", "/usr/share/man/man1/java.1.gz")]
          "auto" "/usr/lib/jvm/java-21/bin/java" "/usr/lib/jvm/java-21/bin/java"
          [mkEntry 1 "/usr/lib/jvm/java-21/bin/java" NoSign [2; 1; 1; 1]%nat
             [("java.1.gz", "/usr/lib/jvm/java-21/man/man1/java.1.gz");
              ("java.ja.1.gz", "/usr/lib/jvm/java-21/man/ja/man1/java.1.gz")];
           mkEntry 1 "/usr/lib/jvm/java-8/jre/bin/java" Minus [1; 0; 8; 1]%nat []])), None).
Proof.
  apply (C1_report_parses_to_its_values " " true false); reflexivity.
Defined.

(** C1 as stated fails: a text that follows the grammar, its INTEGER
    beyond the range of [int], does not parse. *)
Lemma C1_counterexample :
  let d := mkDocument "java" "/usr/bin/java" [] "auto" "/opt/java" "/opt/java"
             [mkEntry 1 "/opt/java" NoSign
                [9; 2; 2; 3; 3; 7; 2; 0; 3; 6; 8; 5; 4; 7; 7; 5; 8; 0; 8]%nat []] in
  okDocument d = true /\
  documentText " " false true d =
    linesText ["Name: java"; "Link: /usr/bin/java"; "Status: auto"; "Best: /opt/java";
               "Value: /opt/java"; ""; "Alternative: /opt/java";
               "Priority: 9223372036854775808"] /\
  ParseString (documentText " " false true d) =
    Some (None, Some (ParseError "invalid priority value" 8)).
Proof. repeat split. Qed.

(** C2. When [Parse] succeeds, the Alternatives sequence of the record is
    a list (never nil) whose entries have, in order, the paths of the
    [Alternative] pairs of the input, which are the pairs its lines give
    ([linePairs]: the lines that start with [Alternative:], in the order
    they are written); an entry in progress when the input ends is appended
    to the finished ones as the last element; and with no [Alternative] pair
    in the input the sequence is the empty list. *)
Theorem C2_alternatives_follow_input_order (input : string) (record : Alternatives.t) :
  ParseString input = Some (Some record, None) ->
  (exists alts,
     Alternatives.Alternatives record = Some alts /\
     map Alternative.Path alts = alternativePaths (pairs input)) /\
  (forall ls,
     forallb (lacks LF) ls = true -> input = linesText ls ->
     pairs input = linePairs None ls) /\
  (forall ls l,
     forallb (lacks LF) ls = true -> lacks LF l = true -> contText l <> "" ->
     input = linesText ls +:+ l ->
     pairs input = linePairs None (ls ++ [l])) /\
  (forall r result alt k v err r',
     reaches (NewParser input) newAlternatives None r result (Some alt) ->
     readKeyValue r = Some (k, v, Some err, r') ->
     exists alts,
       Alternatives.Alternatives result = Some alts /\
       record = setAlternatives result (Some (alts ++ [alt]))) /\
  (alternativePaths (pairs input) = [] -> Alternatives.Alternatives record = Some []).
Proof.
  intros H.
  assert (exists alts,
            Alternatives.Alternatives record = Some alts /\
            map Alternative.Path alts = alternativePaths (pairs input)) as Hmain.
  { rewrite ParseString_eq in H.
    destruct (parseFrom_paths (len input) (mkParser input 0) newAlternatives None record []
                (le_n _) eq_refl H) as (alts & Hr & Hm).
    exists alts. split; [exact Hr|exact Hm]. }
  split; [exact Hmain|split; [|split; [|split]]].
  - intros ls Hls ->. apply (readFrom_lines (length ls)); [apply le_n|exact Hls].
  - intros ls l Hls Hl Hne ->.
    rewrite readFrom_last_line by assumption.
    rewrite <- linesText_snoc.
    apply (readFrom_lines (length (ls ++ [l]))); [apply le_n|].
    rewrite forallb_app, Hls. cbn [forallb]. now rewrite Hl.
  - intros r result alt k v err r' Hreach Hread.
    rewrite ParseString_eq in H. change (mkParser input 0) with (NewParser input) in H.
    rewrite (reaches_parseFrom _ _ _ _ _ _ Hreach), parseFrom_eq, Hread in H.
    destruct (reaches_alternatives _ _ _ _ _ _ [] Hreach eq_refl) as [alts Halts].
    exists alts. split; [exact Halts|].
    destruct err as [|msg line]; [|discriminate].
    injection H as <-. now rewrite Halts.
  - intros Hnone. destruct Hmain as (alts & Hr & Hm).
    rewrite Hnone in Hm. destruct alts; [exact Hr|discriminate].
Qed.

Lemma C2_witness :
  exists alts,
    Alternatives.Alternatives
      (Alternatives.mk "" "" (Some ∅) "" "" ""
         (Some [Alternative.mk "/a" 7 (Some ∅); Alternative.mk "/b" 0 (Some ∅)])) = Some alts /\
    map Alternative.Path alts = ["/a"; "/b"].
Proof.
  exact (proj1 (C2_alternatives_follow_input_order
                  ("Alternative: /a" +:+ String LF ("Priority: 7" +:+ String LF
                   (String LF "Alternative: /b")))
                  (Alternatives.mk "" "" (Some ∅) "" "" ""
                     (Some [Alternative.mk "/a" 7 (Some ∅); Alternative.mk "/b" 0 (Some ∅)]))
                  eq_refl)).
Defined.

(** C3, as the code has it. For the empty string as input, [parseSlaves]
    fails: [strings.Split] makes one empty entry of it, the entry has no
    space, and the result is a nil mapping and the malformed-slaves-line
    error carrying the current line number. *)
Theorem C3_parseSlaves_empty_input_fails (r : Parser) :
  parseSlaves r "" = (None, Some (ParseError "malformed slaves line" (lineNo r))).
Proof. reflexivity. Qed.

(** C3 as stated fails: on the empty string [parseSlaves] returns an error,
    and no mapping, where the claim has an empty mapping and no error. *)
Lemma C3_counterexample :
  parseSlaves (NewParser "") "" <> (Some ∅, None) /\
  ~ (exists m, parseSlaves (NewParser "") "" = (m, None)).
Proof.
  split; [discriminate|]. intros [m H]. discriminate.
Qed.

(** C4, as the code has it. For a key line [Key:<spaces><text>], where the
    text neither starts with a space nor ends with a carriage return, the
    value read is the text: all the spaces after the colon are removed, not
    only one, and so are all the carriage returns at the end of the line. *)
Theorem C4_value_is_text_without_leading_spaces
    (key sp text : string) (k : nat) (tail : string) (n : Z) :
  lacks LF key = true -> lacks COLON key = true ->
  isSpaces sp = true -> lacks LF text = true ->
  startsWith SP text = false -> endsWith CR text = false ->
  endsLine tail = true -> startsWith SP (afterLine tail) = false ->
  readKeyValue (mkParser (key +:+ String COLON (sp +:+ text +:+ crs k) +:+ tail) n) =
    Some (key, text, None, mkParser (afterLine tail) (n + 1)).
Proof.
  intros Hk Hc Hsp Hl Hs He Ht Hn.
  assert (lacks LF (sp +:+ text +:+ crs k) = true) as Hw.
  { rewrite !lacks_app, Hl, crs_lacks_LF, !andb_true_r.
    clear -Hsp. induction sp as [|c sp IH]; [reflexivity|].
    cbn [isSpaces allBytes] in Hsp. apply andb_prop in Hsp as [Hc Hsp].
    rewrite lacks_cons, (IH Hsp), andb_true_r.
    apply Ascii.eqb_eq in Hc. now subst c. }
  destruct tail as [|c rest].
  - rewrite append_nil_r.
    etransitivity; [exact (readKeyValue_last_pair [] key _ n Hk Hc Hw)|].
    rewrite contText_exact by assumption.
    cbn [afterLine length]. do 3 f_equal. lia.
  - cbn [endsLine] in Ht. apply Ascii.eqb_eq in Ht. subst c.
    cbn [afterLine] in *.
    etransitivity; [exact (readKeyValue_pair [] key _ [] rest n Hk Hc Hw eq_refl Hn)|].
    rewrite contText_exact by assumption.
    cbn [map fold_left length]. do 3 f_equal. lia.
Qed.

Lemma C4_witness :
  readKeyValue
    (mkParser ("Name" +:+ String COLON ("  " +:+ "java" +:+ crs 1) +:+ String LF "Link: /usr/bin/java") 0) =
    Some ("Name", "java", None, mkParser "Link: /usr/bin/java" (0 + 1)).
Proof.
  apply (C4_value_is_text_without_leading_spaces "Name" "  " "java" 1
           (String LF "Link: /usr/bin/java") 0); reflexivity.
Defined.

(** C4 as stated fails: of the two spaces written after the colon none is
    kept, where the claim keeps one. *)
Lemma C4_counterexample :
  readKeyValue (NewParser "Name:  java") = Some ("Name", "java", None, mkParser "" 1) /\
  valueLessOneSpace "  java" = " java" /\
  "java" <> valueLessOneSpace "  java".
Proof. repeat split. discriminate. Qed.

(** C5. When the first line that is not blank contains no colon, [Parse]
    fails with the malformed-line error carrying the 1-based number of that
    line, and the record returned is nil. *)
Theorem C5_line_without_colon_is_malformed (ks : list nat) (l tail : string) :
  lacks LF l = true -> isBlank l = false -> lacks COLON l = true ->
  endsLine tail = true ->
  ParseString (blankLines ks +:+ l +:+ tail) =
    Some (None, Some (ParseError "malformed line" (Z.of_nat (length ks) + 1))).
Proof.
  intros Hl Hb Hc Ht.
  rewrite ParseString_eq, parseFrom_eq, readKeyValue_eq.
  destruct (seek_first_line ks l tail 0 Hl Hb Ht) as [rest ->].
  unfold SplitN. rewrite genSplit_absent by now apply lacks_TrimRight.
  reflexivity.
Qed.

Lemma C5_witness :
  ParseString (blankLines [0%nat; 1%nat] +:+ "update-alternatives error" +:+ "") =
    Some (None, Some (ParseError "malformed line" 3)).
Proof.
  apply (C5_line_without_colon_is_malformed [0%nat; 1%nat] "update-alternatives error" "");
    reflexivity.
Defined.

(** C6, as the code has it. When [Parse], with an entry in progress, reads
    a [Priority] pair whose value is not a decimal integer (an optional
    sign, then digits) that fits Go's [int], it fails with the
    invalid-priority error carrying the current line number, and the record
    returned is nil.  When the value is such an integer, negative ones
    included, it becomes the Priority of the entry in progress. *)
Theorem C6_priority_value
    (input : string) (r : Parser) (result : Alternatives.t) (alt : Alternative.t)
    (v : string) (r' : Parser) :
  reaches (NewParser input) newAlternatives None r result (Some alt) ->
  readKeyValue r = Some ("Priority", v, None, r') ->
  ((forall sg ds, isDigits ds = true -> fitsInt (decimalValue sg ds) = true ->
                  v <> decimalText sg ds) ->
   ParseString input =
     Some (None, Some (ParseError "invalid priority value" (lineNo r')))) /\
  (forall sg ds, isDigits ds = true -> fitsInt (decimalValue sg ds) = true ->
                 v = decimalText sg ds ->
   reaches (NewParser input) newAlternatives None r' result
     (Some (Alternative.mk (Alternative.Path alt) (decimalValue sg ds)
              (Alternative.Slaves alt)))).
Proof.
  intros Hreach Hread. split.
  - intros Hbad.
    rewrite ParseString_eq. change (mkParser input 0) with (NewParser input).
    rewrite (reaches_parseFrom _ _ _ _ _ _ Hreach), parseFrom_eq, Hread.
    cbn [keyStep]. unfold alternativeKey. cbn [String.eqb Ascii.eqb Bool.eqb].
    destruct (Atoi v) as [z|] eqn:E; [|reflexivity].
    apply Atoi_inv in E as (sg & ds & Hds & Hv & -> & Hf).
    now destruct (Hbad sg ds Hds Hf).
  - intros sg ds Hds Hf ->.
    eapply reaches_last; [exact Hreach|exact Hread|].
    cbn [keyStep]. unfold alternativeKey. cbn [String.eqb Ascii.eqb Bool.eqb].
    now rewrite (Atoi_decimal sg ds Hds), Hf.
Qed.

Lemma C6_witness :
  reaches (NewParser ("Alternative: /a" +:+ String LF "Priority: -50")) newAlternatives None
    (mkParser "" 2) newAlternatives (Some (Alternative.mk "/a" (-50) (Some ∅))).
Proof.
  apply (proj2 (C6_priority_value ("Alternative: /a" +:+ String LF "Priority: -50")
                  (mkParser "Priority: -50" 1) newAlternatives
                  (Alternative.mk "/a" 0 (Some ∅)) "-50" (mkParser "" 2)
                  ltac:(eapply reaches_step; [reflexivity|reflexivity|apply reaches_here])
                  eq_refl) Minus [5%nat; 0%nat]); reflexivity.
Defined.

(** C6 as stated fails: a syntactically valid integer beyond the range of
    [int] is not stored; the parse fails with the invalid-priority error. *)
Lemma C6_counterexample :
  isDigits [9; 2; 2; 3; 3; 7; 2; 0; 3; 6; 8; 5; 4; 7; 7; 5; 8; 0; 8]%nat = true /\
  decimalText NoSign [9; 2; 2; 3; 3; 7; 2; 0; 3; 6; 8; 5; 4; 7; 7; 5; 8; 0; 8]%nat =
    "9223372036854775808" /\
  ParseString ("Alternative: /a" +:+ String LF "Priority: 9223372036854775808") =
    Some (None, Some (ParseError "invalid priority value" 2)).
Proof. repeat split. Qed.

(** C7. When [Parse], after any number of pairs taken without error, reads
    a pair whose key is not one of its current state (Header: no entry in
    progress; InAlternative: one in progress), it fails with the
    unexpected-key error that names the key and carries the current line
    number, and the record returned is nil. *)
Theorem C7_key_outside_its_state_is_unexpected
    (input : string) (r : Parser) (result : Alternatives.t)
    (currentAlt : option Alternative.t) (k v : string) (r' : Parser) :
  reaches (NewParser input) newAlternatives None r result currentAlt ->
  readKeyValue r = Some (k, v, None, r') ->
  ~ In k (expectedKeys currentAlt) ->
  ParseString input =
    Some (None, Some (ParseError ("unexpected key: " +:+ k) (lineNo r'))).
Proof.
  intros Hreach Hread Hk.
  rewrite ParseString_eq. change (mkParser input 0) with (NewParser input).
  rewrite (reaches_parseFrom _ _ _ _ _ _ Hreach), parseFrom_eq, Hread.
  unfold keyStep. destruct currentAlt as [alt|].
  - now rewrite alternativeKey_unexpected.
  - now rewrite headerKey_unexpected.
Qed.

Lemma C7_witness :
  ParseString ("Name: java" +:+ String LF "Priority: 10") =
    Some (None, Some (ParseError "unexpected key: Priority" 2)).
Proof.
  apply (C7_key_outside_its_state_is_unexpected
           ("Name: java" +:+ String LF "Priority: 10")
           (mkParser "Priority: 10" 1)
           (Alternatives.mk "java" "" (Some ∅) "" "" "" (Some []))
           None "Priority" "10" (mkParser "" 2)).
  - eapply reaches_step; [reflexivity|reflexivity|apply reaches_here].
  - reflexivity.
  - cbn [expectedKeys In]. intros H.
    repeat (destruct H as [H|H]; [discriminate H|]). exact H.
Defined.

(** C8. Parsing a text and parsing the text obtained from it by replacing
    every line feed with a carriage return and a line feed return the same:
    the same record on success, the same error (kind, message and line
    number) on failure. *)
Theorem C8_crlf_parses_as_lf (s : string) : ParseString (crlf s) = ParseString s.
Proof. apply ParseString_crlf. Qed.

(** C9. A last line that is a complete key line may lack its line feed:
    [Parse] returns what it returns when the line feed is there, and
    [readKeyValue] on that last line yields its pair with no error.  At the
    end of the input, nothing left to read but blank lines, [readKeyValue]
    returns io.EOF and [Parse] returns the record, with no error.  In particular a report
    of header fields only, its last line not ended, parses to its record,
    whose Alternatives sequence is empty. *)
Theorem C9_last_line_needs_no_line_feed
    (ls : list string) (key w pad : string) (cr : bool) (d : Document) :
  forallb (lacks LF) ls = true ->
  lacks LF key = true -> lacks COLON key = true -> lacks LF w = true ->
  isSpaces pad = true -> okDocument d = true -> d_entries d = [] ->
  ParseString (linesText ls +:+ key +:+ String COLON w) =
    ParseString (linesText ls +:+ (key +:+ String COLON w) +:+ String LF "") /\
  (forall n, readKeyValue (mkParser (key +:+ String COLON w) n) =
               Some (key, contText w, None, mkParser "" (n + 1))) /\
  (forall ks k n result currentAlt,
     readKeyValue (mkParser (blankLines ks +:+ crs k) n) =
       Some ("", "", Some EOF, mkParser "" (n + Z.of_nat (length ks))) /\
     parseFrom (mkParser (blankLines ks +:+ crs k) n) result currentAlt =
       Some (Some (match currentAlt with
                   | None => result
                   | Some alt =>
                       setAlternatives result (append (Alternatives.Alternatives result) alt)
                   end), None)) /\
  ParseString (documentText pad cr false d) = Some (Some (documentValue d), None) /\
  Alternatives.Alternatives (documentValue d) = Some [].
Proof.
  intros Hls Hk Hc Hw Hpad Hok Hes. repeat split.
  - apply ParseString_last_line; [exact Hls| |apply contText_key_line].
    now rewrite lacks_app, Hk, lacks_cons, Hw.
  - intros n.
    etransitivity; [exact (readKeyValue_last_pair [] key w n Hk Hc Hw)|].
    cbn [length]. do 3 f_equal. lia.
  - rewrite readKeyValue_eq, seek_blankLines, seek_last by apply crs_lacks_LF.
    now rewrite crs_trimmed.
  - rewrite parseFrom_eq, readKeyValue_eq, seek_blankLines, seek_last
      by apply crs_lacks_LF.
    rewrite crs_trimmed. now destruct currentAlt.
  - apply ParseString_documentText; [exact Hpad|exact Hok|].
    unfold prioritiesFit. now rewrite Hes.
  - unfold documentValue. now rewrite Hes.
Qed.

Lemma C9_witness :
  ParseString (linesText ["Name: java"; "Link: /usr/bin/java"] +:+ "Status" +:+ String COLON " auto") =
    ParseString (linesText ["Name: java"; "Link: /usr/bin/java"] +:+
                 ("Status" +:+ String COLON " auto") +:+ String LF "").
Proof.
  exact (proj1 (C9_last_line_needs_no_line_feed
                  ["Name: java"; "Link: /usr/bin/java"] "Status" " auto" " " false
                  (mkDocument "java" "/usr/bin/java" [] "auto" "/usr/bin/java8"
                     "/usr/bin/java8" [])
                  eq_refl eq_refl eq_refl eq_refl eq_refl eq_refl eq_refl)).
Defined.

(** C10. Parsing the empty string, or an input of blank lines only (each
    made of carriage returns, the last one possibly unterminated), succeeds
    and returns the record whose string fields are all empty, whose Slaves
    mapping is empty and not nil, and whose Alternatives sequence is empty
    and not nil: no header field is required to be present. *)
Theorem C10_blank_input_gives_empty_record (ks : list nat) (k : nat) :
  ParseString (blankLines ks +:+ crs k) =
    Some (Some (Alternatives.mk "" "" (Some ∅) "" "" "" (Some [])), None).
Proof.
  rewrite ParseString_eq, parseFrom_eq, readKeyValue_eq.
  rewrite seek_blankLines, seek_last by apply crs_lacks_LF.
  rewrite crs_trimmed. reflexivity.
Qed.

(** ** Further properties of the reader and of [Parse] *)

Section Counting.

Lemma lineCount_line (l rest : string) :
  lacks LF l = true -> lineCount (l +:+ String LF rest) = S (lineCount rest).
Proof.
  induction l as [|c l IH]; intros Hl.
  - rewrite append_nil_l. cbn [lineCount]. now rewrite Ascii.eqb_refl.
  - rewrite lacks_cons in Hl. apply andb_prop in Hl as [Hc Hl].
    apply negb_true_iff in Hc. rewrite append_cons. cbn [lineCount]. rewrite Hc.
    rewrite <- (IH Hl). now destruct l.
Qed.

Lemma lineCount_last (l : string) :
  lacks LF l = true -> lineCount l = if Nat.eqb (len l) 0 then 0%nat else 1%nat.
Proof.
  induction l as [|c l IH]; intros Hl; [reflexivity|].
  rewrite lacks_cons in Hl. apply andb_prop in Hl as [Hc Hl].
  apply negb_true_iff in Hc. cbn [lineCount]. rewrite Hc.
  destruct l as [|d l']; [reflexivity|]. rewrite (IH Hl). reflexivity.
Qed.

(** What a loop of the reader reads is the front of its input. *)
Lemma nextLine_front (trim : string -> string) (a text rest : string) :
  nextLine trim a = Line text rest ->
  (exists l, lacks LF l = true /\ a = l +:+ String LF rest /\ text = trim (l +:+ String LF "")) \/
  (lacks LF a = true /\ rest = "" /\ text = trim a /\ text <> "").
Proof.
  unfold nextLine. destruct (first_line a) as [Hl|(l & rest' & Hl & ->)].
  - rewrite (ReadBytes_last _ Hl).
    destruct (Nat.eqb (len (trim a)) 0) eqn:E; [discriminate|].
    intros H. injection H as <- <-. right. apply len_nonzero in E. auto.
  - rewrite (ReadBytes_line _ _ Hl). intros H. injection H as <- <-.
    left. exists l. auto.
Qed.

Lemma nextLine_none (trim : string -> string) (a : string) :
  nextLine trim a = NoLine -> lacks LF a = true /\ trim a = "".
Proof.
  unfold nextLine. destruct (first_line a) as [Hl|(l & rest' & Hl & ->)].
  - rewrite (ReadBytes_last _ Hl).
    destruct (Nat.eqb (len (trim a)) 0) eqn:E; [|discriminate].
    intros _. apply len_zero in E. auto.
  - now rewrite (ReadBytes_line _ _ Hl).
Qed.

(** The first loop: the line counter grows, by no more than the lines
    read, and by one at least when a line is returned. *)
Lemma seek_count (n : nat) (a : string) (m : Z) (line : string) (err : option error)
    (r' : Parser) :
  (len a <= n)%nat ->
  seek (mkParser a m) = Some (line, err, r') ->
  (exists consumed, a = consumed +:+ R r') /\
  m <= lineNo r' /\
  lineNo r' + Z.of_nat (lineCount (R r')) <= m + Z.of_nat (lineCount a) /\
  (err = None /\ m + 1 <= lineNo r' /\ line <> "" \/ err = Some EOF /\ line = "").
Proof.
  revert a m. induction n as [|n IH]; intros a m Hn; rewrite seek_view;
    destruct (nextLine trimLine a) as [|text rest] eqn:E.
  1,3: intros H; injection H as <- <- <-; cbn [R lineNo];
       destruct (nextLine_none _ _ E) as [Hl _];
       (repeat split; [exists a; now rewrite append_nil_r|lia|cbn [lineCount]; lia|now right]).
  - apply (nextLine_shorter _ _ _ _ eq_refl) in E. lia.
  - pose proof (nextLine_shorter _ _ _ _ eq_refl E) as Hs.
    assert ((exists l, a = l +:+ rest) /\ (lineCount rest + 1 <= lineCount a)%nat) as [[l Hl] Hc].
    { destruct (nextLine_front _ _ _ _ E) as [(l & Hl & -> & _)|(Hl & -> & _ & Hne)].
      - split; [exists (l +:+ String LF ""); now rewrite append_assoc|].
        rewrite (lineCount_line _ _ Hl). lia.
      - split; [exists a; now rewrite append_nil_r|].
        rewrite (lineCount_last _ Hl). destruct a; [|cbn; lia].
        unfold nextLine in E. discriminate. }
    destruct (Nat.eqb (len text) 0) eqn:Et.
    + intros H. apply IH in H; [|lia].
      destruct H as ([c Hcons] & H1 & H2 & H3).
      repeat split; [exists (l +:+ c); now rewrite append_assoc, <- Hcons|lia|lia|].
      destruct H3 as [(? & ? & ?)|?]; [left; repeat split; auto; lia|now right].
    + intros H. injection H as <- <- <-. cbn [R lineNo].
      apply len_nonzero in Et.
      repeat split; [now exists l|lia|lia|left; repeat split; auto; lia].
Qed.

(** The second loop: no error, and the same bounds on the line counter. *)
Lemma cont_count (n : nat) (a : string) (m : Z) (value value' : string)
    (err : option error) (r' : Parser) :
  (len a <= n)%nat ->
  cont (mkParser a m) value = Some (value', err, r') ->
  err = None /\ (exists consumed, a = consumed +:+ R r') /\
  m <= lineNo r' /\
  lineNo r' + Z.of_nat (lineCount (R r')) <= m + Z.of_nat (lineCount a).
Proof.
  revert a m value. induction n as [|n IH]; intros a m value Hn; rewrite cont_view;
    destruct (startsWith SP a) eqn:Hsp.
  2,4: intros H; injection H as <- <- <-; cbn [R lineNo];
       (repeat split; [now exists ""|lia|lia]).
  1,2: destruct (nextLine contText a) as [|text rest] eqn:E.
  1,3: intros H; injection H as <- <- <-; cbn [R lineNo];
       (repeat split; [exists a; now rewrite append_nil_r|lia|cbn [lineCount]; lia]).
  - apply (nextLine_shorter _ _ _ _ eq_refl) in E. lia.
  - pose proof (nextLine_shorter _ _ _ _ eq_refl E) as Hs.
    assert ((exists l, a = l +:+ rest) /\ (lineCount rest + 1 <= lineCount a)%nat) as [[l Hl] Hc].
    { destruct (nextLine_front _ _ _ _ E) as [(l & Hl & -> & _)|(Hl & -> & _ & Hne)].
      - split; [exists (l +:+ String LF ""); now rewrite append_assoc|].
        rewrite (lineCount_line _ _ Hl). lia.
      - split; [exists a; now rewrite append_nil_r|].
        rewrite (lineCount_last _ Hl). destruct a; [discriminate|cbn; lia]. }
    intros H. apply IH in H; [|lia].
    destruct H as (He & [c Hcons] & H1 & H2). cbn [R lineNo] in *.
    repeat split; [exact He|exists (l +:+ c); now rewrite append_assoc, <- Hcons|lia|lia].
Qed.

Lemma readKeyValue_count (r : Parser) (k v : string) (err : option error) (r' : Parser) :
  readKeyValue r = Some (k, v, err, r') ->
  (exists consumed, R r = consumed +:+ R r') /\
  lineNo r <= lineNo r' /\
  lineNo r' + Z.of_nat (lineCount (R r')) <= lineNo r + Z.of_nat (lineCount (R r)) /\
  (err = Some EOF \/
   lineNo r + 1 <= lineNo r' /\
   (err = None \/ err = Some (ParseError "malformed line" (lineNo r')))).
Proof.
  destruct r as [a m]. rewrite readKeyValue_eq. cbn [R lineNo].
  destruct (seek (mkParser a m)) as [[[line e1] r1]|] eqn:E1; [|discriminate].
  destruct (seek_count (len a) a m line e1 r1 (le_n _) E1) as ([c1 Hc1] & H1 & H2 & H3).
  destruct H3 as [(-> & H3 & Hne)|[-> ->]].
  2: { intros H. injection H as <- <- <- <-.
       repeat split; [now exists c1|lia|lia|now left]. }
  destruct (SplitN line COLON 2) as [|key [|rest [|]]].
  1,2,4: intros H; injection H as <- <- <- <-;
         (repeat split; [now exists c1|lia|lia|right; split; [lia|now right]]).
  destruct r1 as [a1 m1]. cbn [R lineNo] in *.
  destruct (cont (mkParser a1 m1) (contText rest)) as [[[v2 e2] r2]|] eqn:E2; [|discriminate].
  destruct (cont_count (len a1) a1 m1 _ _ _ _ (le_n _) E2) as (-> & [c2 Hc2] & H4 & H5).
  intros H. injection H as <- <- <- <-.
  repeat split; [exists (c1 +:+ c2); now rewrite append_assoc, <- Hc2|lia|lia|].
  right. split; [lia|now left].
Qed.

End Counting.

Section Outcomes.

Lemma parseSlavesLines_outcome (r : Parser) (lines : list string) (m : gmap string string) :
  (exists m', parseSlavesLines r lines m = (Some m', None)) \/
  parseSlavesLines r lines m = (None, Some (ParseError "malformed slaves line" (lineNo r))).
Proof.
  revert m. induction lines as [|line lines IH]; intros m; [left; now exists m|].
  cbn [parseSlavesLines].
  destruct (SplitN line SP 2) as [|name [|path [|]]]; try (now right). apply IH.
Qed.

Lemma keyStep_error (r : Parser) (result : Alternatives.t) (currentAlt : option Alternative.t)
    (k v : string) (e : error) :
  keyStep r result currentAlt k v = inr e ->
  exists msg, e = ParseError msg (lineNo r) /\ isParseMessage msg.
Proof.
  assert (forall e, snd (parseSlaves r v) = Some e ->
                    e = ParseError "malformed slaves line" (lineNo r)) as Hs.
  { intros e' H. unfold parseSlaves in H.
    destruct (parseSlavesLines_outcome r (Split v LF) ∅) as [[m' E]|E];
      rewrite E in H; [discriminate|now injection H as <-]. }
  unfold isParseMessage, keyStep, headerKey, alternativeKey.
  destruct (parseSlaves r v) as [m [e'|]] eqn:E;
    [pose proof (Hs e' eq_refl) as ->|]; clear Hs;
    (destruct currentAlt as [alt|]; [|destruct result]);
    repeat match goal with
           | |- context [String.eqb k ?x] => destruct (String.eqb k x)
           | |- context [Atoi v] => destruct (Atoi v)
           end;
    intros H; try discriminate; injection H as <-; eauto 10.
Qed.

(** [Parse] from any state: a record and no error, or no record and an
    error of its own kinds whose line is one of the lines not yet read. *)
Lemma parseFrom_outcome (n : nat) (r : Parser) (result : Alternatives.t)
    (currentAlt : option Alternative.t) :
  (len (R r) <= n)%nat ->
  (exists record, parseFrom r result currentAlt = Some (Some record, None)) \/
  (exists msg line,
     parseFrom r result currentAlt = Some (None, Some (ParseError msg line)) /\
     lineNo r + 1 <= line <= lineNo r + Z.of_nat (lineCount (R r)) /\
     isParseMessage msg).
Proof.
  revert r result currentAlt.
  induction n as [|n IH]; intros r result currentAlt Hn; rewrite parseFrom_eq;
    destruct (readKeyValue_total r) as [[[[k v] err] r1] E]; rewrite E;
    destruct (readKeyValue_count _ _ _ _ _ E) as (_ & H1 & H2 & H3);
    pose proof (Nat2Z.is_nonneg (lineCount (R r1))) as Hpos;
    (destruct H3 as [->|[H3 [->| ->]]];
     [left; destruct currentAlt; eauto
     | | right; exists "malformed line", (lineNo r1);
         split; [reflexivity|split; [lia|now left]]]).
  - apply readKeyValue_progress in E. lia.
  - destruct (keyStep r1 result currentAlt k v) as [[result1 currentAlt1]|e] eqn:Ek.
    + apply readKeyValue_progress in E.
      destruct (IH r1 result1 currentAlt1 ltac:(lia)) as [Hok|(msg & line & Herr & Hl & Hm)];
        [now left|right].
      exists msg, line. split; [exact Herr|split; [lia|exact Hm]].
    + right. destruct (keyStep_error _ _ _ _ _ _ Ek) as (msg & -> & Hm).
      exists msg, (lineNo r1). split; [reflexivity|split; [lia|exact Hm]].
Qed.

Lemma TrimRight_empty (l cs : string) :
  TrimRight l cs = "" -> allBytes (inCutset cs) l = true.
Proof.
  induction l as [|c l IH]; intros H; [reflexivity|].
  cbn [TrimRight] in H. cbn [allBytes].
  destruct (TrimRight l cs) eqn:E; [|discriminate].
  destruct (inCutset cs c); [now rewrite IH|discriminate].
Qed.

(** The first loop returns io.EOF on texts of line ends only, and on no
    other. *)
Lemma seek_EOF (n : nat) (a : string) (m : Z) :
  (len a <= n)%nat ->
  (exists line r', seek (mkParser a m) = Some (line, Some EOF, r')) <->
  allBytes (inCutset CRLF) a = true.
Proof.
  revert a m. induction n as [|n IH]; intros a m Hn;
    (destruct (first_line a) as [Hl|(l & rest & Hl & ->)];
     [rewrite seek_last by exact Hl|rewrite seek_line by exact Hl]).
  1,3: destruct (Nat.eqb (len (TrimRight a CRLF)) 0) eqn:E;
       [apply len_zero in E; split; [intros _; now apply TrimRight_empty|eauto]
       |apply len_nonzero in E; split;
        [intros (line & r' & H); discriminate
        |intros H; now rewrite (TrimRight_cut _ _ H) in E]].
  - rewrite len_app in Hn. unfold len in Hn. cbn in Hn. lia.
  - rewrite allBytes_app. cbn [allBytes]. change (inCutset CRLF LF) with true. cbn [andb].
    destruct (Nat.eqb (len (TrimRight l CRLF)) 0) eqn:E.
    + apply len_zero in E. rewrite (TrimRight_empty _ _ E). cbn [andb].
      apply IH. rewrite len_app in Hn. unfold len in *. cbn in Hn. lia.
    + apply len_nonzero in E. split; [intros (line & r' & H); discriminate|].
      intros H. apply andb_prop in H as [H _]. now rewrite (TrimRight_cut _ _ H) in E.
Qed.

End Outcomes.

(** X1. [Parse] returns on every input, and returns either a record and no
    error, or no record and a [ParseError]: never io.EOF, never a partial
    record.  The message of the error is one of the four the code makes and
    its line number is that of a line of the input, counted from one. *)
Theorem X1_parse_returns_record_or_parse_error (input : string) :
  (exists record, ParseString input = Some (Some record, None)) \/
  (exists msg line,
     ParseString input = Some (None, Some (ParseError msg line)) /\
     1 <= line <= Z.of_nat (lineCount input) /\ isParseMessage msg).
Proof.
  rewrite ParseString_eq.
  destruct (parseFrom_outcome (len input) (mkParser input 0) newAlternatives None (le_n _))
    as [Hok|(msg & line & Herr & Hl & Hm)]; [now left|right].
  exists msg, line. cbn [R lineNo] in Hl. split; [exact Herr|split; [lia|exact Hm]].
Qed.

(** X2. Each call of [readKeyValue] reads a front part of what is left of
    the input and never moves the line counter back; the counter grows by
    no more than the lines read, so it stays within the lines of the input
    and cannot wrap.  When the call returns a pair or the malformed-line
    error the counter has grown by one at least; otherwise the error is
    io.EOF. *)
Theorem X2_line_counter_follows_the_lines_read
    (r : Parser) (k v : string) (err : option error) (r' : Parser) :
  readKeyValue r = Some (k, v, err, r') ->
  (exists consumed, R r = consumed +:+ R r') /\
  lineNo r <= lineNo r' /\
  lineNo r' + Z.of_nat (lineCount (R r')) <= lineNo r + Z.of_nat (lineCount (R r)) /\
  (err = Some EOF \/
   lineNo r + 1 <= lineNo r' /\
   (err = None \/ err = Some (ParseError "malformed line" (lineNo r')))).
Proof. apply readKeyValue_count. Qed.

Lemma X2_witness :
  (exists consumed, "Name: java" +:+ String LF "Link: /usr/bin/java" = consumed +:+ "Link: /usr/bin/java") /\
  0 <= 1 /\
  1 + Z.of_nat (lineCount "Link: /usr/bin/java") <=
    0 + Z.of_nat (lineCount ("Name: java" +:+ String LF "Link: /usr/bin/java")) /\
  (@None error = Some EOF \/
   0 + 1 <= 1 /\ (@None error = None \/ None = Some (ParseError "malformed line" 1))).
Proof.
  exact (X2_line_counter_follows_the_lines_read
           (mkParser ("Name: java" +:+ String LF "Link: /usr/bin/java") 0)
           "Name" "java" None (mkParser "Link: /usr/bin/java" 1) eq_refl).
Defined.

(** X3. [readKeyValue] returns io.EOF exactly when nothing but carriage
    returns and line feeds is left of the input: blank lines at the end are
    no error, and any other byte left gives a pair or a [ParseError]. *)
Theorem X3_eof_exactly_on_line_ends_only (r : Parser) :
  (exists k v r', readKeyValue r = Some (k, v, Some EOF, r')) <->
  allBytes (inCutset CRLF) (R r) = true.
Proof.
  destruct r as [a m]. cbn [R].
  rewrite <- (seek_EOF (len a) a m (le_n _)). rewrite readKeyValue_eq.
  destruct (seek (mkParser a m)) as [[[line e1] r1]|] eqn:E1.
  - destruct e1 as [e|].
    + split.
      * intros (k & v & r' & H). injection H as _ _ -> _. eauto.
      * intros (line' & r' & H). injection H as _ -> _. eauto.
    + split; [|intros (line' & r' & H); discriminate].
      intros (k & v & r' & H).
      destruct (SplitN line COLON 2) as [|key [|rest [|]]]; try discriminate.
      destruct r1 as [a1 m1].
      destruct (cont (mkParser a1 m1) (contText rest)) as [[[v2 e2] r2]|] eqn:E2;
        [|discriminate].
      destruct (cont_count (len a1) a1 m1 _ _ _ _ (le_n _) E2) as (-> & _).
      discriminate.
  - split; [intros (k & v & r' & H)|intros (line' & r' & H)]; discriminate.
Qed.

Section Slaves.

Lemma cutAt_found (sep : ascii) (s : string) :
  lacks sep s = false ->
  lacks sep (fst (cutAt sep s)) = true /\
  s = fst (cutAt sep s) +:+ String sep (snd (cutAt sep s)).
Proof.
  induction s as [|c s IH]; intros H; [discriminate|].
  rewrite lacks_cons in H. cbn [cutAt].
  destruct (Ascii.eqb_spec c sep) as [->|Hc].
  - split; reflexivity.
  - cbn [negb andb] in H. destruct (IH H) as [I1 I2].
    destruct (cutAt sep s) as [a b]. cbn [fst snd] in *.
    split.
    + rewrite lacks_cons, I1. apply Ascii.eqb_neq in Hc. now rewrite Hc.
    + rewrite append_cons. now rewrite <- I2.
Qed.

Lemma SplitN_cut (e : string) :
  SplitN e SP 2 =
    if lacks SP e then [e] else [fst (cutAt SP e); snd (cutAt SP e)].
Proof.
  unfold SplitN. destruct (lacks SP e) eqn:E.
  - now apply genSplit_absent.
  - destruct (cutAt_found SP e E) as [H1 H2].
    rewrite H2 at 1. rewrite genSplit_found by exact H1. now rewrite genSplit_zero.
Qed.

Lemma parseSlavesLines_spec (r : Parser) (lines : list string) (m : gmap string string) :
  parseSlavesLines r lines m =
    if existsb (lacks SP) lines
    then (None, Some (ParseError "malformed slaves line" (lineNo r)))
    else (Some (fold_left (fun m s => <[fst s := snd s]> m) (map (cutAt SP) lines) m), None).
Proof.
  revert m. induction lines as [|e lines IH]; intros m; [reflexivity|].
  cbn [parseSlavesLines existsb map fold_left]. rewrite SplitN_cut.
  destruct (lacks SP e); [reflexivity|]. cbn [orb]. apply IH.
Qed.

Lemma slavesMap_snoc (ss : list (string * string)) (s : string * string) :
  slavesMap (ss ++ [s]) = <[fst s := snd s]> (slavesMap ss).
Proof. unfold slavesMap. now rewrite fold_left_app. Qed.

Lemma snoc_split {A : Type} (l b a : list A) (x y : A) :
  l ++ [x] = b ++ y :: a ->
  (a = [] /\ b = l /\ y = x) \/ (exists a', a = a' ++ [x] /\ l = b ++ y :: a').
Proof.
  intros H. destruct a as [|z a' _] using rev_ind.
  - apply app_inj_tail in H as [-> ->]. now left.
  - right. exists a'.
    change (b ++ y :: a' ++ [z]) with (b ++ (y :: a') ++ [z]) in H.
    rewrite List.app_assoc in H. now apply app_inj_tail in H as [-> ->].
Qed.

(** In the map of a list of slaves the last pair of a name counts. *)
Lemma slavesMap_lookup (ss : list (string * string)) (n p : string) :
  slavesMap ss !! n = Some p <->
  exists before after, ss = before ++ (n, p) :: after /\ Forall (fun s => fst s <> n) after.
Proof.
  induction ss as [|s ss IH] using rev_ind.
  - split; [discriminate|]. intros (b & a & H & _). now destruct b.
  - rewrite slavesMap_snoc. destruct (decide (fst s = n)) as [<-|Hne].
    + rewrite lookup_insert_eq. split.
      * intros H. injection H as <-. exists ss, []. split; [now destruct s|constructor].
      * intros (b & a & H & Ha). apply snoc_split in H as [(-> & -> & E)|(a' & -> & _)].
        -- now rewrite <- E.
        -- apply Forall_app in Ha as [_ Ha]. apply Forall_inv in Ha. contradiction.
    + rewrite lookup_insert_ne by exact Hne. rewrite IH. split.
      * intros (b & a & -> & Ha). exists b, (a ++ [s]).
        split; [now rewrite <- List.app_assoc|].
        apply Forall_app. split; [exact Ha|]. constructor; [exact Hne|constructor].
      * intros (b & a & H & Ha). apply snoc_split in H as [(-> & -> & E)|(a' & -> & ->)].
        -- subst s. now destruct Hne.
        -- exists b, a'. split; [reflexivity|]. now apply Forall_app in Ha as [Ha _].
Qed.

End Slaves.

(** X4. [parseSlaves] fails exactly when one of the entries of its input
    (the texts between line feeds) has no space, wherever that entry is: the
    result is then the nil map and the malformed-slaves-line error of the
    current line, never a map of the entries before it.  Otherwise it
    returns, with no error, the map that sends the text before the first
    space of each entry to the text after it. *)
Theorem X4_parseSlaves_all_entries_or_none (r : Parser) (input : string) :
  parseSlaves r input =
    if existsb (lacks SP) (Split input LF)
    then (None, Some (ParseError "malformed slaves line" (lineNo r)))
    else (Some (slavesMap (map (cutAt SP) (Split input LF))), None).
Proof. apply parseSlavesLines_spec. Qed.

(** X5. In the map [parseSlaves] returns, a name that several entries have
    is sent to the path of the last of them: the map sends [n] to [p]
    exactly when the last entry whose text before the first space is [n]
    has [p] after that space.  Every entry is its name, a space and its
    path. *)
Theorem X5_parseSlaves_last_entry_of_a_name_wins
    (r : Parser) (input : string) (m : gmap string string) :
  parseSlaves r input = (Some m, None) ->
  (forall n p,
     m !! n = Some p <->
     exists before after,
       map (cutAt SP) (Split input LF) = before ++ (n, p) :: after /\
       Forall (fun s => fst s <> n) after) /\
  Forall (fun e => e = fst (cutAt SP e) +:+ String SP (snd (cutAt SP e))) (Split input LF).
Proof.
  unfold parseSlaves. rewrite parseSlavesLines_spec.
  destruct (existsb (lacks SP) (Split input LF)) eqn:E; [discriminate|].
  intros H. injection H as <-. split.
  - intros n p. apply slavesMap_lookup.
  - apply List.Forall_forall. intros e He.
    assert (lacks SP e = false) as Hl.
    { destruct (lacks SP e) eqn:El; [|reflexivity].
      assert (existsb (lacks SP) (Split input LF) = true) as Hc
        by (apply existsb_exists; eauto).
      congruence. }
    now destruct (cutAt_found SP e Hl).
Qed.

Lemma X5_witness :
  (<["a" := "/2"]> (<["b" := "/x"]> (<["a" := "/1"]> (∅ : gmap string string)))) !! "a" = Some "/2".
Proof.
  apply (proj1 (X5_parseSlaves_last_entry_of_a_name_wins (NewParser "")
                  ("a /1" +:+ String LF ("b /x" +:+ String LF "a /2"))
                  (<["a" := "/2"]> (<["b" := "/x"]> (<["a" := "/1"]> ∅))) eq_refl)).
  exists [("a", "/1"); ("b", "/x")], []. split; [reflexivity|constructor].
Defined.

Section Assembly.

Lemma lastOf_cons (key : string) (kv : string * string) (kvs : list (string * string)) :
  lastOf key (kv :: kvs) =
    match lastOf key kvs with
    | Some v => Some v
    | None => if String.eqb (fst kv) key then Some (snd kv) else None
    end.
Proof.
  unfold lastOf. cbn [List.filter].
  assert (forall (l : list (string * string)) (y : string * string),
            exists v, List.last (map (fun kv => Some (snd kv)) (y :: l)) None = Some v) as Hl.
  { induction l as [|x l IH]; intros y; [now exists (snd y)|].
    change (List.last (map ?f (y :: x :: l)) ?e) with (List.last (map f (x :: l)) e).
    apply IH. }
  destruct (String.eqb (fst kv) key).
  - cbn [map]. destruct (List.filter _ kvs) as [|y l'] eqn:E; [reflexivity|].
    change (List.last (Some (snd kv) :: map ?f (y :: l')) None)
      with (List.last (map f (y :: l')) None).
    destruct (Hl l' y) as [v ->]. reflexivity.
  - now destruct (List.last _ None).
Qed.

Lemma lastOr_cons (d key : string) (kv : string * string) (kvs : list (string * string)) :
  lastOr d key (kv :: kvs) = lastOr (if String.eqb (fst kv) key then snd kv else d) key kvs.
Proof.
  unfold lastOr. rewrite lastOf_cons.
  destruct (lastOf key kvs); [reflexivity|]. now destruct (String.eqb (fst kv) key).
Qed.

(** What a key that is taken does to the state of [Parse]. *)
Lemma keyStep_inv (r : Parser) (result : Alternatives.t) (currentAlt : option Alternative.t)
    (k v : string) (result1 : Alternatives.t) (currentAlt1 : option Alternative.t) :
  keyStep r result currentAlt k v = inl (result1, currentAlt1) ->
  match currentAlt with
  | None =>
      (In k fieldKeys /\ currentAlt1 = None /\
       Alternatives.Alternatives result1 = Alternatives.Alternatives result) \/
      (k = "Alternative" /\ result1 = result /\
       currentAlt1 = Some (Alternative.mk v 0 (Some ∅)))
  | Some alt =>
      (k = "Priority" /\ result1 = result /\
       exists z, Atoi v = Some z /\
         currentAlt1 = Some (Alternative.mk (Alternative.Path alt) z (Alternative.Slaves alt))) \/
      (k = "Slaves" /\ result1 = result /\
       exists m, parseSlaves r v = (m, None) /\
         currentAlt1 = Some (Alternative.mk (Alternative.Path alt)
                               (Alternative.Priority alt) m)) \/
      (k = "Alternative" /\
       result1 = setAlternatives result (append (Alternatives.Alternatives result) alt) /\
       currentAlt1 = Some (Alternative.mk v 0 (Some ∅)))
  end.
Proof.
  intros H. destruct currentAlt as [alt|]; cbn [keyStep] in H.
  - unfold alternativeKey in H.
    destruct (String.eqb_spec k "Priority") as [->|_].
    { destruct (Atoi v) as [z|] eqn:E; [|discriminate]. injection H as <- <-.
      left. eauto. }
    destruct (String.eqb_spec k "Slaves") as [->|_].
    { destruct (parseSlaves r v) as [m [e|]] eqn:E; [discriminate|]. injection H as <- <-.
      right. left. eauto. }
    destruct (String.eqb_spec k "Alternative") as [->|_]; [|discriminate].
    injection H as <- <-. right. right. auto.
  - unfold headerKey in H. destruct result as [name link slaves status best value alts].
    repeat match type of H with
           | context [String.eqb k ?x] =>
               destruct (String.eqb_spec k x) as [->|_];
               [try (destruct (parseSlaves r v) as [m [e|]]; [discriminate|]);
                injection H as <- <-;
                first [left; cbn [fieldKeys In]; tauto|right; auto]|]
           end.
    discriminate.
Qed.

(** What a key that is taken does to the header fields. *)
Lemma keyStep_fields (r : Parser) (result : Alternatives.t) (currentAlt : option Alternative.t)
    (k v : string) (result1 : Alternatives.t) (currentAlt1 : option Alternative.t) :
  keyStep r result currentAlt k v = inl (result1, currentAlt1) ->
  Alternatives.Name result1 = (if String.eqb k "Name" then v else Alternatives.Name result) /\
  Alternatives.Link result1 = (if String.eqb k "Link" then v else Alternatives.Link result) /\
  Alternatives.Status result1 =
    (if String.eqb k "Status" then v else Alternatives.Status result) /\
  Alternatives.Best result1 = (if String.eqb k "Best" then v else Alternatives.Best result) /\
  Alternatives.Value result1 = (if String.eqb k "Value" then v else Alternatives.Value result).
Proof.
  intros H. destruct currentAlt as [alt|]; cbn [keyStep] in H.
  - apply (keyStep_inv r result (Some alt)) in H.
    destruct H as [(-> & -> & _)|[(-> & -> & _)|(-> & -> & _)]];
      destruct result; repeat split.
  - unfold headerKey in H. destruct result as [name link slaves status best value alts].
    repeat match type of H with
           | context [String.eqb k ?x] =>
               destruct (String.eqb_spec k x) as [->|?];
               [try (destruct (parseSlaves r v) as [m [e|]]; [discriminate|]);
                injection H as <- <-; repeat split|]
           end.
    discriminate.
Qed.

Lemma parseFrom_fields (n : nat) (r : Parser) (result : Alternatives.t)
    (currentAlt : option Alternative.t) (record : Alternatives.t) :
  (len (R r) <= n)%nat ->
  parseFrom r result currentAlt = Some (Some record, None) ->
  Alternatives.Name record = lastOr (Alternatives.Name result) "Name" (readFrom r) /\
  Alternatives.Link record = lastOr (Alternatives.Link result) "Link" (readFrom r) /\
  Alternatives.Status record = lastOr (Alternatives.Status result) "Status" (readFrom r) /\
  Alternatives.Best record = lastOr (Alternatives.Best result) "Best" (readFrom r) /\
  Alternatives.Value record = lastOr (Alternatives.Value result) "Value" (readFrom r).
Proof.
  revert r result currentAlt.
  induction n as [|n IH]; intros r result currentAlt Hn H;
    rewrite parseFrom_eq in H; rewrite readFrom_eq;
    destruct (readKeyValue r) as [[[[k v] err] r1]|] eqn:E; try discriminate;
    (destruct err as [[|msg line]|]; try discriminate;
     [destruct currentAlt; injection H as <-; destruct result; repeat split|]).
  - apply readKeyValue_progress in E. lia.
  - destruct (keyStep r1 result currentAlt k v) as [[result1 currentAlt1]|e] eqn:Ek;
      [|discriminate].
    apply readKeyValue_progress in E.
    destruct (keyStep_fields _ _ _ _ _ _ _ Ek) as (F1 & F2 & F3 & F4 & F5).
    rewrite !lastOr_cons. cbn [fst snd].
    rewrite <- F1, <- F2, <- F3, <- F4, <- F5.
    apply (IH r1 result1 currentAlt1); [lia|exact H].
Qed.

End Assembly.

(** X6. When [Parse] succeeds, each of the fields Name, Link, Status, Best
    and Value of the record is the value of the last pair of the input with
    that key, and the empty string when the input has no such pair: a field
    written twice is not an error, the later value replaces the earlier. *)
Theorem X6_last_header_field_wins (input : string) (record : Alternatives.t) :
  ParseString input = Some (Some record, None) ->
  Alternatives.Name record = lastOr "" "Name" (pairs input) /\
  Alternatives.Link record = lastOr "" "Link" (pairs input) /\
  Alternatives.Status record = lastOr "" "Status" (pairs input) /\
  Alternatives.Best record = lastOr "" "Best" (pairs input) /\
  Alternatives.Value record = lastOr "" "Value" (pairs input).
Proof.
  intros H. rewrite ParseString_eq in H.
  exact (parseFrom_fields (len input) (mkParser input 0) newAlternatives None record
           (le_n _) H).
Qed.

Lemma X6_witness :
  Alternatives.Name (Alternatives.mk "b" "" (Some ∅) "auto" "" "" (Some [])) = "b" /\
  Alternatives.Link (Alternatives.mk "b" "" (Some ∅) "auto" "" "" (Some [])) = "" /\
  Alternatives.Status (Alternatives.mk "b" "" (Some ∅) "auto" "" "" (Some [])) = "auto" /\
  Alternatives.Best (Alternatives.mk "b" "" (Some ∅) "auto" "" "" (Some [])) = "" /\
  Alternatives.Value (Alternatives.mk "b" "" (Some ∅) "auto" "" "" (Some [])) = "".
Proof.
  exact (X6_last_header_field_wins
           ("Name: a" +:+ String LF ("Status: auto" +:+ String LF "Name: b"))
           (Alternatives.mk "b" "" (Some ∅) "auto" "" "" (Some [])) eq_refl).
Defined.

Section Blocks.

(** With an entry in progress every key taken is a key of an entry. *)
Lemma parseFrom_entry_keys (n : nat) (r : Parser) (result : Alternatives.t)
    (alt : Alternative.t) (record : Alternatives.t) :
  (len (R r) <= n)%nat ->
  parseFrom r result (Some alt) = Some (Some record, None) ->
  Forall (fun kv => In (fst kv) entryKeys) (readFrom r).
Proof.
  revert r result alt.
  induction n as [|n IH]; intros r result alt Hn H;
    rewrite parseFrom_eq in H; rewrite readFrom_eq;
    destruct (readKeyValue r) as [[[[k v] err] r1]|] eqn:E; try discriminate;
    (destruct err as [[|msg line]|]; try discriminate; [constructor|]).
  - apply readKeyValue_progress in E. lia.
  - destruct (keyStep r1 result (Some alt) k v) as [[result1 currentAlt1]|e] eqn:Ek;
      [|discriminate].
    apply readKeyValue_progress in E. apply keyStep_inv in Ek.
    destruct Ek as [(-> & _ & z & _ & ->)|[(-> & _ & m & _ & ->)|(-> & _ & ->)]];
      (constructor; [cbn [entryKeys In fst]; tauto|]);
      (eapply IH; [|exact H]; lia).
Qed.

Lemma parseFrom_key_places (n : nat) (r : Parser) (result : Alternatives.t)
    (record : Alternatives.t) :
  (len (R r) <= n)%nat ->
  parseFrom r result None = Some (Some record, None) ->
  exists hs bs,
    readFrom r = hs ++ bs /\
    Forall (fun kv => In (fst kv) fieldKeys) hs /\
    Forall (fun kv => In (fst kv) entryKeys) bs /\
    (bs = [] \/ exists v bs', bs = ("Alternative", v) :: bs').
Proof.
  revert r result.
  induction n as [|n IH]; intros r result Hn H;
    pose proof H as H0; rewrite parseFrom_eq in H; rewrite readFrom_eq;
    destruct (readKeyValue r) as [[[[k v] err] r1]|] eqn:E; try discriminate;
    (destruct err as [[|msg line]|]; try discriminate;
     [exists [], []; repeat split; auto|]).
  - apply readKeyValue_progress in E. lia.
  - destruct (keyStep r1 result None k v) as [[result1 currentAlt1]|e] eqn:Ek;
      [|discriminate].
    pose proof (readKeyValue_progress _ _ _ _ E) as Hlt. apply keyStep_inv in Ek.
    destruct Ek as [(Hk & -> & _)|(-> & -> & ->)].
    + destruct (IH r1 result1 ltac:(lia) H) as (hs & bs & -> & Hh & Hb & Hfirst).
      exists ((k, v) :: hs), bs. repeat split; auto.
    + exists [], (("Alternative", v) :: readFrom r1). repeat split; [constructor| |eauto].
      constructor; [cbn [entryKeys In fst]; tauto|].
      eapply (parseFrom_entry_keys (len (R r1))); [apply le_n|exact H].
Qed.

Lemma parseSlaves_fst (r r' : Parser) (v : string) :
  fst (parseSlaves r v) = fst (parseSlaves r' v).
Proof.
  unfold parseSlaves. rewrite !parseSlavesLines_spec.
  now destruct (existsb (lacks SP) (Split v LF)).
Qed.

Lemma finishEntry_nil (alt : Alternative.t) : finishEntry alt [] = alt.
Proof. now destruct alt. Qed.

Lemma finishEntry_Priority (alt : Alternative.t) (v : string) (z : Z)
    (block : list (string * string)) :
  Atoi v = Some z ->
  finishEntry alt (("Priority", v) :: block) =
  finishEntry (Alternative.mk (Alternative.Path alt) z (Alternative.Slaves alt)) block.
Proof.
  intros Hz. unfold finishEntry. rewrite !lastOf_cons. cbn [fst snd Alternative.Path
    Alternative.Priority Alternative.Slaves].
  change (String.eqb "Priority" "Priority") with true.
  change (String.eqb "Priority" "Slaves") with false.
  destruct (lastOf "Priority" block), (lastOf "Slaves" block); now rewrite ?Hz.
Qed.

Lemma finishEntry_Slaves (r : Parser) (alt : Alternative.t) (v : string)
    (m : option (gmap string string)) (block : list (string * string)) :
  parseSlaves r v = (m, None) ->
  finishEntry alt (("Slaves", v) :: block) =
  finishEntry (Alternative.mk (Alternative.Path alt) (Alternative.Priority alt) m) block.
Proof.
  intros Hm. unfold finishEntry. rewrite !lastOf_cons. cbn [fst snd Alternative.Path
    Alternative.Priority Alternative.Slaves].
  change (String.eqb "Slaves" "Priority") with false.
  change (String.eqb "Slaves" "Slaves") with true.
  destruct (lastOf "Priority" block), (lastOf "Slaves" block); cbv iota;
    now rewrite ?(parseSlaves_fst (NewParser "") r v), ?Hm.
Qed.

(** The entries [Parse] returns, from any of its states. *)
Lemma parseFrom_blocks (n : nat) (r : Parser) (result : Alternatives.t)
    (currentAlt : option Alternative.t) (record : Alternatives.t)
    (alts : list Alternative.t) :
  (len (R r) <= n)%nat ->
  Alternatives.Alternatives result = Some alts ->
  parseFrom r result currentAlt = Some (Some record, None) ->
  Alternatives.Alternatives record =
    Some (alts ++
          match currentAlt with
          | None => []
          | Some alt => [finishEntry alt (blockOf (readFrom r))]
          end ++ map entryOf (blocksOf (readFrom r))).
Proof.
  revert r result currentAlt alts.
  induction n as [|n IH]; intros r result currentAlt alts Hn Halts H;
    rewrite parseFrom_eq in H; rewrite readFrom_eq;
    destruct (readKeyValue r) as [[[[k v] err] r1]|] eqn:E; try discriminate;
    (destruct err as [[|msg line]|]; try discriminate;
     [destruct currentAlt as [alt|]; injection H as <-;
      cbn [blockOf blocksOf map]; rewrite ?finishEntry_nil, ?List.app_nil_r;
      [now (cbn; rewrite Halts)|exact Halts]|]).
  - apply readKeyValue_progress in E. lia.
  - destruct (keyStep r1 result currentAlt k v) as [[result1 currentAlt1]|e] eqn:Ek;
      [|discriminate].
    pose proof (readKeyValue_progress _ _ _ _ E) as Hlt. apply keyStep_inv in Ek.
    destruct currentAlt as [alt|].
    + destruct Ek as [(-> & -> & z & Hz & ->)|[(-> & -> & m & Hm & ->)|(-> & -> & ->)]].
      * rewrite (IH r1 result _ alts ltac:(lia) Halts H).
        cbn [blockOf blocksOf fst snd].
        change (String.eqb "Priority" "Alternative") with false. cbv iota.
        now rewrite (finishEntry_Priority alt v z _ Hz).
      * rewrite (IH r1 result _ alts ltac:(lia) Halts H).
        cbn [blockOf blocksOf fst snd].
        change (String.eqb "Slaves" "Alternative") with false. cbv iota.
        now rewrite (finishEntry_Slaves r1 alt v m _ Hm).
      * assert (Alternatives.Alternatives
                  (setAlternatives result (append (Alternatives.Alternatives result) alt)) =
                Some (alts ++ [alt])) as Ha.
        { rewrite Halts. reflexivity. }
        rewrite (IH r1 _ _ (alts ++ [alt]) ltac:(lia) Ha H).
        cbn [blockOf blocksOf fst snd map].
        change (String.eqb "Alternative" "Alternative") with true. cbv iota.
        rewrite finishEntry_nil. unfold entryOf at 2. cbn [fst snd map].
        now rewrite <- !List.app_assoc.
    + destruct Ek as [(Hk & -> & Ha)|(-> & -> & ->)].
      * rewrite (IH r1 result1 None alts ltac:(lia) ltac:(now rewrite Ha) H).
        cbn [blocksOf fst snd].
        assert (String.eqb k "Alternative" = false) as ->; [|reflexivity].
        cbn [fieldKeys In] in Hk.
        repeat (destruct Hk as [<-|Hk]; [reflexivity|]). contradiction.
      * rewrite (IH r1 result _ alts ltac:(lia) Halts H).
        cbn [blocksOf fst snd map].
        change (String.eqb "Alternative" "Alternative") with true. cbv iota.
        reflexivity.
Qed.

End Blocks.

(** X7. When [Parse] succeeds, the pairs of the input are header fields
    (Name, Link, Slaves, Status, Best, Value, in any order and number) and
    then, from the first [Alternative] pair on, [Alternative], [Priority]
    and [Slaves] pairs only: once an entry is started no header field is
    accepted any more. *)
Theorem X7_header_fields_then_entries (input : string) (record : Alternatives.t) :
  ParseString input = Some (Some record, None) ->
  exists hs bs,
    pairs input = hs ++ bs /\
    Forall (fun kv => In (fst kv) fieldKeys) hs /\
    Forall (fun kv => In (fst kv) entryKeys) bs /\
    (bs = [] \/ exists v bs', bs = ("Alternative", v) :: bs').
Proof.
  intros H. rewrite ParseString_eq in H.
  exact (parseFrom_key_places (len input) (mkParser input 0) newAlternatives record
           (le_n _) H).
Qed.

Lemma X7_witness :
  exists hs bs,
    pairs ("Name: a" +:+ String LF ("Alternative: /a" +:+ String LF "Priority: 3")) = hs ++ bs /\
    Forall (fun kv => In (fst kv) fieldKeys) hs /\
    Forall (fun kv => In (fst kv) entryKeys) bs /\
    (bs = [] \/ exists v bs', bs = ("Alternative", v) :: bs').
Proof.
  exact (X7_header_fields_then_entries
           ("Name: a" +:+ String LF ("Alternative: /a" +:+ String LF "Priority: 3"))
           (Alternatives.mk "a" "" (Some ∅) "" "" ""
              (Some [Alternative.mk "/a" 3 (Some ∅)])) eq_refl).
Defined.

(** X8. When [Parse] succeeds, its Alternatives sequence has one entry for
    each [Alternative] pair of the input, in order: the Path is the value of
    that pair; the Priority is the integer of the last [Priority] pair before
    the next [Alternative] pair, and 0 when there is none; the Slaves mapping
    is that of the last [Slaves] pair there, and the empty mapping (not nil)
    when there is none. *)
Theorem X8_entries_are_the_blocks_of_the_input (input : string) (record : Alternatives.t) :
  ParseString input = Some (Some record, None) ->
  Alternatives.Alternatives record = Some (map entryOf (blocksOf (pairs input))).
Proof.
  intros H. rewrite ParseString_eq in H.
  exact (parseFrom_blocks (len input) (mkParser input 0) newAlternatives None record []
           (le_n _) eq_refl H).
Qed.

Lemma X8_witness :
  Alternatives.Alternatives
    (Alternatives.mk "" "" (Some ∅) "" "" ""
       (Some [Alternative.mk "/a" 0 (Some ∅); Alternative.mk "/b" 7 (Some ∅)])) =
  Some (map entryOf
          (blocksOf (pairs ("Alternative: /a" +:+ String LF
                            ("Alternative: /b" +:+ String LF
                             ("Priority: 3" +:+ String LF "Priority: 7")))))).
Proof.
  exact (X8_entries_are_the_blocks_of_the_input
           ("Alternative: /a" +:+ String LF
            ("Alternative: /b" +:+ String LF ("Priority: 3" +:+ String LF "Priority: 7")))
           (Alternatives.mk "" "" (Some ∅) "" "" ""
              (Some [Alternative.mk "/a" 0 (Some ∅); Alternative.mk "/b" 7 (Some ∅)]))
           eq_refl).
Defined.

Section Continuation.

Lemma dropEmpty_keep (x : string) (xs : list string) : x <> "" -> dropEmpty (x :: xs) = x :: xs.
Proof. intros H. destruct x; [contradiction|reflexivity]. Qed.

(** The value built by the second loop of [readKeyValue]: the texts after
    the leading empty ones, a line feed between them. *)
Lemma fold_addLine_join (xs : list string) (v : string) :
  fold_left addLine xs v = joinLines (dropEmpty (v :: xs)).
Proof.
  revert v. induction xs as [|y ys IH]; intros v.
  - now destruct v.
  - destruct v as [|c v'].
    + cbn [fold_left]. change (addLine "" y) with y. apply IH.
    + rewrite addLine_join by discriminate. reflexivity.
Qed.

Lemma dropEmpty_In (p : string) (xs : list string) : In p xs -> p <> "" -> In p (dropEmpty xs).
Proof.
  intros Hin Hp. induction xs as [|x xs IH]; [contradiction|].
  destruct x as [|c x'].
  - cbn [dropEmpty len String.length Nat.eqb]. destruct Hin as [<-|Hin]; [contradiction|auto].
  - exact Hin.
Qed.

Lemma dropEmpty_forallb (P : string -> bool) (xs : list string) :
  forallb P xs = true -> forallb P (dropEmpty xs) = true.
Proof.
  induction xs as [|x xs IH]; intros H; [reflexivity|].
  cbn [dropEmpty]. destruct (Nat.eqb (len x) 0); [|exact H].
  cbn [forallb] in H. apply andb_prop in H as [_ H]. auto.
Qed.

Lemma lacks_TrimLeft (c : ascii) (s cs : string) :
  lacks c s = true -> lacks c (TrimLeft s cs) = true.
Proof.
  induction s as [|x s IH]; intros H; [reflexivity|].
  cbn [TrimLeft]. destruct (inCutset cs x); [|exact H].
  rewrite lacks_cons in H. apply andb_prop in H as [_ H]. auto.
Qed.

Lemma lacks_contText (c : ascii) (s : string) : lacks c s = true -> lacks c (contText s) = true.
Proof. intros H. unfold contText. now apply lacks_TrimRight, lacks_TrimLeft. Qed.

Lemma addLine_blank (value : string) :
  addLine value "" = if Nat.eqb (len value) 0 then "" else value +:+ String LF "".
Proof.
  unfold addLine. destruct value as [|c v]; [reflexivity|].
  cbn [len String.length Nat.ltb Nat.leb Nat.eqb]. now rewrite append_nil_r.
Qed.

(** The continuation lines of a value, whatever follows them. *)
Lemma cont_block_any (ls : list string) (rest : string) (n : Z) (value : string) :
  forallb (lacks LF) ls = true ->
  cont (mkParser (contBlock ls +:+ rest) n) value =
    cont (mkParser rest (n + Z.of_nat (length ls)))
         (fold_left addLine (map (fun l => contText (String SP l)) ls) value).
Proof.
  revert n value. induction ls as [|l ls IH]; intros n value Hls.
  - cbn [contBlock map fold_left length]. now rewrite Z.add_0_r.
  - cbn [forallb] in Hls. apply andb_prop in Hls as [Hl Hls].
    cbn [contBlock]. rewrite append_assoc, (append_cons LF).
    rewrite cont_line by exact Hl. rewrite (IH _ _ Hls).
    replace (n + Z.of_nat (length (l :: ls))) with (n + 1 + Z.of_nat (length ls))
      by (cbn [length]; lia).
    reflexivity.
Qed.

Lemma readKeyValue_pair_any (ks : list nat) (key w : string) (ls : list string)
    (rest : string) (n : Z) :
  lacks LF key = true -> lacks COLON key = true -> lacks LF w = true ->
  forallb (lacks LF) ls = true ->
  readKeyValue
    (mkParser (blankLines ks +:+ key +:+ String COLON w +:+ String LF (contBlock ls +:+ rest)) n) =
    match cont (mkParser rest (n + Z.of_nat (length ks) + 1 + Z.of_nat (length ls)))
               (joinLines (dropEmpty (contText w :: map (fun l => contText (String SP l)) ls)))
    with
    | None => None
    | Some (_, Some err, r) => Some ("", "", Some err, r)
    | Some (value, None, r) => Some (key, value, None, r)
    end.
Proof.
  intros Hk Hc Hw Hls.
  rewrite readKeyValue_eq, seek_blankLines.
  rewrite <- append_assoc.
  rewrite seek_line by (rewrite lacks_app, Hk; exact Hw).
  destruct (seek_key_line key w Hc) as [E1 E2].
  rewrite E1, key_line_len. cbv beta iota. rewrite E2.
  rewrite contText_TrimRight, cont_block_any by assumption.
  now rewrite fold_addLine_join.
Qed.

End Continuation.

(** X9. The value of a pair with continuation lines.  After any blank
    lines, a key line [key:w] followed by lines that start with a space, up
    to a text that does not start with one, is read as one pair: its value
    is the text of the key line after the colon and the texts of the
    continuation lines, each without its leading spaces and the carriage
    returns at its end, with one line feed between them; the empty texts at
    the front are left out, so the value never starts with a line feed.  The
    line counter grows by the number of lines read, the blank ones
    included. *)
Theorem X9_continuation_lines_are_joined_by_line_feeds
    (ks : list nat) (key w : string) (ls : list string) (rest : string) (n : Z) :
  lacks LF key = true -> lacks COLON key = true -> lacks LF w = true ->
  forallb (lacks LF) ls = true -> startsWith SP rest = false ->
  readKeyValue
    (mkParser (blankLines ks +:+ key +:+ String COLON w +:+ String LF (contBlock ls +:+ rest)) n) =
    Some (key,
          joinLines (dropEmpty (contText w :: map (fun l => contText (String SP l)) ls)),
          None,
          mkParser rest (n + Z.of_nat (length ks) + 1 + Z.of_nat (length ls))).
Proof.
  intros Hk Hc Hw Hls Hrest.
  rewrite readKeyValue_pair_any by assumption.
  now rewrite cont_none by exact Hrest.
Qed.

Lemma X9_witness :
  readKeyValue
    (mkParser (blankLines [1%nat] +:+ "Slaves" +:+ String COLON "" +:+
               String LF (contBlock ["a /1"; "  b /2" +:+ String CR ""] +:+ "Status: auto")) 0) =
    Some ("Slaves", "a /1" +:+ String LF "b /2", None, mkParser "Status: auto" 4).
Proof.
  exact (X9_continuation_lines_are_joined_by_line_feeds
           [1%nat] "Slaves" "" ["a /1"; "  b /2" +:+ String CR ""] "Status: auto" 0
           eq_refl eq_refl eq_refl eq_refl eq_refl).
Defined.

(** X10. A last continuation line with nothing but spaces and carriage
    returns counts only when it is ended by a line feed.  Left unended at
    the end of the input it is dropped: the pair has the value and the line
    count it has without that line.  Ended by a line feed it is a line of
    the value: the line counter grows by one more and a value that is not
    empty gets a line feed at its end. *)
Theorem X10_blank_last_continuation_line
    (ks : list nat) (key w : string) (ls : list string) (l : string) (n : Z) :
  lacks LF key = true -> lacks COLON key = true -> lacks LF w = true ->
  forallb (lacks LF) ls = true -> lacks LF l = true -> contText (String SP l) = "" ->
  readKeyValue
    (mkParser (blankLines ks +:+ key +:+ String COLON w +:+
               String LF (contBlock ls +:+ String SP l)) n) =
    Some (key,
          joinLines (dropEmpty (contText w :: map (fun l => contText (String SP l)) ls)),
          None,
          mkParser "" (n + Z.of_nat (length ks) + 1 + Z.of_nat (length ls))) /\
  readKeyValue
    (mkParser (blankLines ks +:+ key +:+ String COLON w +:+
               String LF (contBlock ls +:+ String SP l +:+ String LF "")) n) =
    Some (key,
          (let value :=
             joinLines (dropEmpty (contText w :: map (fun l => contText (String SP l)) ls)) in
           if Nat.eqb (len value) 0 then "" else value +:+ String LF ""),
          None,
          mkParser "" (n + Z.of_nat (length ks) + 1 + Z.of_nat (length ls) + 1)).
Proof.
  intros Hk Hc Hw Hls Hl Hblank. split.
  - rewrite readKeyValue_pair_any by assumption.
    rewrite cont_last by exact Hl. now rewrite Hblank.
  - rewrite readKeyValue_pair_any by assumption.
    rewrite cont_line by exact Hl. rewrite cont_eof, Hblank, addLine_blank.
    reflexivity.
Qed.

Lemma X10_witness :
  readKeyValue (mkParser (blankLines [] +:+ "Value" +:+ String COLON " /a" +:+
                          String LF (contBlock [] +:+ String SP " ")) 0) =
    Some ("Value", "/a", None, mkParser "" 1) /\
  readKeyValue (mkParser (blankLines [] +:+ "Value" +:+ String COLON " /a" +:+
                          String LF (contBlock [] +:+ String SP " " +:+ String LF "")) 0) =
    Some ("Value", "/a" +:+ String LF "", None, mkParser "" 2).
Proof.
  exact (X10_blank_last_continuation_line [] "Value" " /a" [] " " 0
           eq_refl eq_refl eq_refl eq_refl eq_refl eq_refl).
Defined.

(** X11. A [Slaves] pair with a line that has text but no space in it makes
    [Parse] fail, in either of its states, with the malformed-slaves-line
    error and the nil record; the line number of the error is that of the
    last line of the pair, its last continuation line, whichever line of the
    pair is the one without a space. *)
Theorem X11_slaves_error_carries_the_last_line_of_the_pair
    (input : string) (r : Parser) (result : Alternatives.t)
    (currentAlt : option Alternative.t)
    (ks : list nat) (w : string) (ls : list string) (rest p : string) :
  reaches (NewParser input) newAlternatives None r result currentAlt ->
  R r = blankLines ks +:+ "Slaves" +:+ String COLON w +:+ String LF (contBlock ls +:+ rest) ->
  lacks LF w = true -> forallb (lacks LF) ls = true -> startsWith SP rest = false ->
  In p (contText w :: map (fun l => contText (String SP l)) ls) ->
  p <> "" -> lacks SP p = true ->
  ParseString input =
    Some (None,
          Some (ParseError "malformed slaves line"
                  (lineNo r + Z.of_nat (length ks) + 1 + Z.of_nat (length ls)))).
Proof.
  intros Hreach HR Hw Hls Hrest Hin Hp Hsp.
  rewrite ParseString_eq. change (mkParser input 0) with (NewParser input).
  rewrite (reaches_parseFrom _ _ _ _ _ _ Hreach), parseFrom_eq.
  destruct r as [a m]. cbn [R lineNo] in *. subst a.
  rewrite readKeyValue_pair_any by (reflexivity || assumption).
  rewrite cont_none by exact Hrest.
  rewrite keyStep_Slaves. unfold parseSlaves. rewrite parseSlavesLines_spec.
  set (xs := dropEmpty (contText w :: map (fun l => contText (String SP l)) ls)).
  assert (In p xs) as Hpx by now apply dropEmpty_In.
  assert (Split (joinLines xs) LF = xs) as ->.
  { unfold Split. apply genSplit_join.
    - apply dropEmpty_forallb. cbn [forallb].
      rewrite (lacks_contText LF w Hw). cbn [andb].
      rewrite forallb_forall in *. intros x Hx.
      apply in_map_iff in Hx as (l & <- & Hl).
      apply lacks_contText. rewrite lacks_cons. now rewrite (Hls l Hl).
    - intros E. now rewrite E in Hpx.
    - apply len_joinLines. }
  assert (existsb (lacks SP) xs = true) as -> by (apply existsb_exists; eauto).
  reflexivity.
Qed.

Lemma X11_witness :
  ParseString ("Name: a" +:+ String LF
               ("Slaves:" +:+ String LF
                (" b /1" +:+ String LF (" bad" +:+ String LF (" c /2" +:+ String LF ""))))) =
    Some (None, Some (ParseError "malformed slaves line" 5)).
Proof.
  apply (X11_slaves_error_carries_the_last_line_of_the_pair
           ("Name: a" +:+ String LF
            ("Slaves:" +:+ String LF
             (" b /1" +:+ String LF (" bad" +:+ String LF (" c /2" +:+ String LF "")))))
           (mkParser ("Slaves:" +:+ String LF
                      (" b /1" +:+ String LF (" bad" +:+ String LF (" c /2" +:+ String LF "")))) 1)
           (Alternatives.mk "a" "" (Some ∅) "" "" "" (Some []))
           None [] "" ["b /1"; "bad"; "c /2"] "" "bad").
  - eapply reaches_step; [reflexivity|reflexivity|apply reaches_here].
  - reflexivity.
  - reflexivity.
  - reflexivity.
  - reflexivity.
  - right. right. left. reflexivity.
  - discriminate.
  - reflexivity.
Defined.

Section HeaderSlaves.

Lemma parseSlaves_map (r : Parser) (v : string) (m : option (gmap string string)) :
  parseSlaves r v = (m, None) -> m = Some (slavesMap (map (cutAt SP) (Split v LF))).
Proof.
  unfold parseSlaves. rewrite parseSlavesLines_spec.
  destruct (existsb (lacks SP) (Split v LF)); [discriminate|].
  intros H. now injection H as <-.
Qed.

(** What a key taken in the Header state does to the Slaves field. *)
Lemma keyStep_header_slaves (r : Parser) (result : Alternatives.t) (k v : string)
    (result1 : Alternatives.t) (currentAlt1 : option Alternative.t) :
  keyStep r result None k v = inl (result1, currentAlt1) ->
  Alternatives.Slaves result1 =
    if String.eqb k "Slaves" then Some (slavesMap (map (cutAt SP) (Split v LF)))
    else Alternatives.Slaves result.
Proof.
  cbn [keyStep]. unfold headerKey.
  destruct result as [name link slaves status best value alts]. intros H.
  repeat match type of H with
         | context [String.eqb k ?x] =>
             destruct (String.eqb_spec k x) as [->|?];
             [try (destruct (parseSlaves r v) as [m [e|]] eqn:Es; [discriminate|];
                   apply parseSlaves_map in Es; subst m);
              injection H as <- <-; reflexivity|]
         end.
  discriminate.
Qed.

Lemma parseFrom_header_slaves (n : nat) (r : Parser) (result : Alternatives.t)
    (currentAlt : option Alternative.t) (record : Alternatives.t) :
  (len (R r) <= n)%nat ->
  parseFrom r result currentAlt = Some (Some record, None) ->
  Alternatives.Slaves record =
    match currentAlt with
    | Some _ => Alternatives.Slaves result
    | None =>
        match lastOf "Slaves" (blockOf (readFrom r)) with
        | Some v => Some (slavesMap (map (cutAt SP) (Split v LF)))
        | None => Alternatives.Slaves result
        end
    end.
Proof.
  revert r result currentAlt.
  induction n as [|n IH]; intros r result currentAlt Hn H;
    rewrite parseFrom_eq in H; rewrite readFrom_eq;
    destruct (readKeyValue r) as [[[[k v] err] r1]|] eqn:E; try discriminate;
    (destruct err as [[|msg line]|]; try discriminate;
     [destruct currentAlt; injection H as <-; destruct result; reflexivity|]).
  - apply readKeyValue_progress in E. lia.
  - destruct (keyStep r1 result currentAlt k v) as [[result1 currentAlt1]|e] eqn:Ek;
      [|discriminate].
    apply readKeyValue_progress in E.
    pose proof (IH r1 result1 currentAlt1 ltac:(lia) H) as Hrec.
    pose proof Ek as Hinv. apply keyStep_inv in Hinv.
    destruct currentAlt as [alt|].
    + destruct Hinv as [(_ & -> & z & _ & ->)|[(_ & -> & m & _ & ->)|(_ & -> & ->)]];
        rewrite Hrec; now destruct result.
    + destruct Hinv as [(Hk & -> & _)|(-> & -> & ->)].
      * apply keyStep_header_slaves in Ek. rewrite Hrec, Ek.
        cbn [blockOf fst snd].
        assert (String.eqb k "Alternative" = false) as ->.
        { cbn [fieldKeys In] in Hk.
          repeat (destruct Hk as [<-|Hk]; [reflexivity|]). contradiction. }
        rewrite lastOf_cons. cbn [fst snd].
        destruct (lastOf "Slaves" (blockOf (readFrom r1))); [reflexivity|].
        now destruct (String.eqb k "Slaves").
      * rewrite Hrec. cbn [blockOf fst].
        change (String.eqb "Alternative" "Alternative") with true. reflexivity.
Qed.

End HeaderSlaves.

(** X12. When [Parse] succeeds, the Slaves mapping of the record is that of
    the last [Slaves] pair before the first [Alternative] pair: it sends the
    text before the first space of each line of that value to the text after
    it.  With no such pair it is the empty mapping, not nil.  The [Slaves]
    pairs after an [Alternative] pair do not change it. *)
Theorem X12_header_slaves_of_the_last_header_pair (input : string) (record : Alternatives.t) :
  ParseString input = Some (Some record, None) ->
  Alternatives.Slaves record =
    match lastOf "Slaves" (blockOf (pairs input)) with
    | Some v => Some (slavesMap (map (cutAt SP) (Split v LF)))
    | None => Some ∅
    end.
Proof.
  intros H. rewrite ParseString_eq in H.
  exact (parseFrom_header_slaves (len input) (mkParser input 0) newAlternatives None record
           (le_n _) H).
Qed.

Lemma X12_witness :
  Alternatives.Slaves
    (Alternatives.mk "" "" (Some (<["m" := "/1"]> ∅)) "" "" ""
       (Some [Alternative.mk "/a" 0 (Some (<["m" := "/2"]> ∅))])) =
    match
      lastOf "Slaves"
        (blockOf (pairs ("Slaves: m /1" +:+ String LF
                         ("Alternative: /a" +:+ String LF "Slaves: m /2"))))
    with
    | Some v => Some (slavesMap (map (cutAt SP) (Split v LF)))
    | None => Some ∅
    end.
Proof.
  exact (X12_header_slaves_of_the_last_header_pair
           ("Slaves: m /1" +:+ String LF ("Alternative: /a" +:+ String LF "Slaves: m /2"))
           (Alternatives.mk "" "" (Some (<["m" := "/1"]> ∅)) "" "" ""
              (Some [Alternative.mk "/a" 0 (Some (<["m" := "/2"]> ∅))]))
           eq_refl).
Defined.
